(** * White-noise session of [web_server.cpp] and [noise.c]

    A shallow embedding of the noise generator ([frand_signed],
    [data_callback]) and of the session globals of [web_server.cpp]
    ([start_noise], [stop_noise], the deadline monitor and the HTTP
    handlers), followed by the properties of the specification.

    Conventions.
    - [ma_uint32] / [unsigned int] values are [Z] with the wrap-around
      written out ([u32]); [int] is a [Z].
    - [float] is IEEE-754 binary32, taken from the parameterised
      [SpecFloat] operations at precision 24 and [emax] 128.
    - Every function of [web_server.cpp] that touches the globals does so
      inside a [std::lock_guard] on [g_audioMutex]; a critical section is
      modelled as one atomic state transformer, and an interleaving of the
      request threads and the monitor thread is a sequence of critical
      sections.
    - The miniaudio subsystem is external: its answers during one critical
      section are the fields of an [Env], and every call made to it is
      appended to a log kept beside the globals. *)

From Stdlib Require Import Strings.String.
From Stdlib Require Import ZArith List Bool Lia.
From Stdlib Require Import Floats.SpecFloat.
Import ListNotations.
Local Open Scope Z_scope.

(** ** Machine integers *)

Definition u32 (z : Z) : Z := z mod 2 ^ 32.

(** ** binary32 *)

Module F32.
Definition prec : Z := 24.
Definition emax : Z := 128.

Definition f32 : Type := spec_float.

(** Conversion of an integer, rounding to nearest even. *)
Definition of_Z (z : Z) : f32 := binary_normalize prec emax z 0 false.

Definition mul : f32 -> f32 -> f32 := SFmul prec emax.
Definition div : f32 -> f32 -> f32 := SFdiv prec emax.
Definition sub : f32 -> f32 -> f32 := SFsub prec emax.
Definition ltb : f32 -> f32 -> bool := SFltb.
Definition leb : f32 -> f32 -> bool := SFleb.
Definition opp : f32 -> f32 := SFopp.
Definition valid : f32 -> bool := valid_binary prec emax.

Definition zero : f32 := S754_zero false.
Definition one : f32 := Eval cbv in of_Z 1.
Definition two : f32 := Eval cbv in of_Z 2.
(** [0.2f], the nearest binary32 to 1/5: 13421773 * 2^-26. *)
Definition c0_2 : f32 := S754_finite false 13421773 (-26).
End F32.
Import F32.

(** ** The generator *)

Record NoiseState : Type := mkNoiseState {
  amplitude : f32;
  channels : Z;
  seed : Z
}.

(** The seed update of [frand_signed]: multiply by 1664525u, add
    1013904223u, both in 32-bit unsigned arithmetic. *)
Definition lcg (s : Z) : Z := u32 (u32 (s * 1664525) + 1013904223).

(** [frand_signed]: the new seed and the returned value. *)
Definition frand_signed (s : Z) : Z * f32 :=
  let s' := lcg s in
  let v := div (of_Z (Z.land s' 0x00FFFFFF)) (of_Z 0x01000000) in
  (s', sub (mul v two) one).

(** One iteration of the loop of [data_callback]:
    [f32[i] = frand_signed(&st->seed) * st->amplitude]. *)
Definition next (st : NoiseState) : f32 * NoiseState :=
  let '(s', r) := frand_signed (seed st) in
  (mul r (amplitude st), mkNoiseState (amplitude st) (channels st) s').

Fixpoint fill (n : nat) (st : NoiseState) : list f32 * NoiseState :=
  match n with
  | O => ([], st)
  | S n' =>
      let '(x, st1) := next st in
      let '(xs, st2) := fill n' st1 in
      (x :: xs, st2)
  end.

(** [data_callback]: [total = (ma_uint64)frameCount * st->channels] samples
    are written; the product of two 32-bit values does not wrap in 64
    bits. *)
Definition data_callback (frameCount : Z) (st : NoiseState)
  : list f32 * NoiseState :=
  fill (Z.to_nat (frameCount * channels st)) st.

(** Successive callbacks on the same state, outputs concatenated. *)
Fixpoint callbacks (frames : list Z) (st : NoiseState)
  : list f32 * NoiseState :=
  match frames with
  | [] => ([], st)
  | fc :: rest =>
      let '(out, st1) := data_callback fc st in
      let '(outs, st2) := callbacks rest st1 in
      (out ++ outs, st2)
  end.

(** ** The audio subsystem seen from the program *)

Record DeviceConfig : Type := mkDeviceConfig {
  cfg_channels : Z;
  cfg_sampleRate : Z;
  (** [config.playback.pDeviceID]: [None] is the null pointer, the default
      endpoint; [Some i] is the id of entry [i] of the enumeration. *)
  cfg_pDeviceID : option Z
}.

Inductive Event : Type :=
| EvContextInit (ok : bool)
| EvGetDevices
| EvDeviceInit (cfg : DeviceConfig) (ok : bool)
| EvDeviceStart (ok : bool)
| EvDeviceStop
| EvDeviceUninit.

(** What the subsystem and the clock answer during one critical section. *)
Record Env : Type := mkEnv {
  ctx_init_ok : bool;
  (** [Some count] when [ma_context_get_devices] succeeds. *)
  playback_devices : option Z;
  device_init_ok : DeviceConfig -> bool;
  device_start_ok : bool;
  (** [std::chrono::steady_clock::now()], in milliseconds. *)
  now : Z
}.

(** ** The globals of [web_server.cpp] *)

Record Globals : Type := mkGlobals {
  g_ctx_inited : bool;
  g_selectedPlaybackIndex : Z;
  g_noiseDeviceInited : bool;
  g_noiseRunning : bool;
  g_noiseState : NoiseState;
  g_monitorRunning : bool;
  g_hasDeadline : bool;
  g_noiseStopAt : Z;
  (** Calls made to the subsystem so far, oldest first. *)
  ma_log : list Event
}.

Definition initial : Globals :=
  {| g_ctx_inited := false;
     g_selectedPlaybackIndex := -1;
     g_noiseDeviceInited := false;
     g_noiseRunning := false;
     g_noiseState := mkNoiseState zero 0 0;
     g_monitorRunning := false;
     g_hasDeadline := false;
     g_noiseStopAt := 0;
     ma_log := [] |}.

Module Set_.
Definition ctx_inited (b : bool) (g : Globals) : Globals :=
  mkGlobals b (g_selectedPlaybackIndex g) (g_noiseDeviceInited g)
    (g_noiseRunning g) (g_noiseState g) (g_monitorRunning g)
    (g_hasDeadline g) (g_noiseStopAt g) (ma_log g).
Definition selectedPlaybackIndex (i : Z) (g : Globals) : Globals :=
  mkGlobals (g_ctx_inited g) i (g_noiseDeviceInited g)
    (g_noiseRunning g) (g_noiseState g) (g_monitorRunning g)
    (g_hasDeadline g) (g_noiseStopAt g) (ma_log g).
Definition noiseDeviceInited (b : bool) (g : Globals) : Globals :=
  mkGlobals (g_ctx_inited g) (g_selectedPlaybackIndex g) b
    (g_noiseRunning g) (g_noiseState g) (g_monitorRunning g)
    (g_hasDeadline g) (g_noiseStopAt g) (ma_log g).
Definition noiseRunning (b : bool) (g : Globals) : Globals :=
  mkGlobals (g_ctx_inited g) (g_selectedPlaybackIndex g)
    (g_noiseDeviceInited g) b (g_noiseState g) (g_monitorRunning g)
    (g_hasDeadline g) (g_noiseStopAt g) (ma_log g).
Definition noiseState (st : NoiseState) (g : Globals) : Globals :=
  mkGlobals (g_ctx_inited g) (g_selectedPlaybackIndex g)
    (g_noiseDeviceInited g) (g_noiseRunning g) st (g_monitorRunning g)
    (g_hasDeadline g) (g_noiseStopAt g) (ma_log g).
Definition monitorRunning (b : bool) (g : Globals) : Globals :=
  mkGlobals (g_ctx_inited g) (g_selectedPlaybackIndex g)
    (g_noiseDeviceInited g) (g_noiseRunning g) (g_noiseState g) b
    (g_hasDeadline g) (g_noiseStopAt g) (ma_log g).
Definition hasDeadline (b : bool) (g : Globals) : Globals :=
  mkGlobals (g_ctx_inited g) (g_selectedPlaybackIndex g)
    (g_noiseDeviceInited g) (g_noiseRunning g) (g_noiseState g)
    (g_monitorRunning g) b (g_noiseStopAt g) (ma_log g).
Definition noiseStopAt (t : Z) (g : Globals) : Globals :=
  mkGlobals (g_ctx_inited g) (g_selectedPlaybackIndex g)
    (g_noiseDeviceInited g) (g_noiseRunning g) (g_noiseState g)
    (g_monitorRunning g) (g_hasDeadline g) t (ma_log g).
Definition log (e : Event) (g : Globals) : Globals :=
  mkGlobals (g_ctx_inited g) (g_selectedPlaybackIndex g)
    (g_noiseDeviceInited g) (g_noiseRunning g) (g_noiseState g)
    (g_monitorRunning g) (g_hasDeadline g) (g_noiseStopAt g)
    (ma_log g ++ [e]).
End Set_.

(** ** A state monad over the globals *)

Definition M (A : Type) : Type := Globals -> A * Globals.

Definition ret {A} (a : A) : M A := fun g => (a, g).
Definition bind {A B} (m : M A) (k : A -> M B) : M B :=
  fun g => let '(a, g') := m g in k a g'.
Definition get {A} (f : Globals -> A) : M A := fun g => (f g, g).
Definition modify (f : Globals -> Globals) : M unit := fun g => (tt, f g).
Definition when (b : bool) (m : M unit) : M unit := if b then m else ret tt.

Declare Scope m_scope.
Delimit Scope m_scope with m.
Notation "x <- m ;; k" := (bind m (fun x => k))
  (at level 61, m at next level, right associativity) : m_scope.
Notation "m ;; k" := (bind m (fun _ => k))
  (at level 61, right associativity) : m_scope.
Local Open Scope m_scope.

(** *** Calls into miniaudio *)

Definition ma_context_init (env : Env) : M bool :=
  modify (Set_.log (EvContextInit (ctx_init_ok env))) ;;
  ret (ctx_init_ok env).

Definition ma_context_get_devices (env : Env) : M (option Z) :=
  modify (Set_.log EvGetDevices) ;;
  ret (playback_devices env).

Definition ma_device_init (env : Env) (cfg : DeviceConfig) : M bool :=
  modify (Set_.log (EvDeviceInit cfg (device_init_ok env cfg))) ;;
  ret (device_init_ok env cfg).

Definition ma_device_start (env : Env) : M bool :=
  modify (Set_.log (EvDeviceStart (device_start_ok env))) ;;
  ret (device_start_ok env).

Definition ma_device_stop : M unit := modify (Set_.log EvDeviceStop).
Definition ma_device_uninit : M unit := modify (Set_.log EvDeviceUninit).

(** ** The functions of [web_server.cpp] *)

Definition ensure_audio_context (env : Env) : M unit :=
  inited <- get g_ctx_inited ;;
  if negb inited then
    ok <- ma_context_init env ;;
    if negb ok then ret tt
    else modify (Set_.ctx_inited true)
  else ret tt.

(** The thread itself is the transition [monitor_iteration] below. *)
Definition start_monitor_if_needed : M unit :=
  running <- get g_monitorRunning ;;
  when (negb running) (modify (Set_.monitorRunning true)).

(** One turn of the loop of the monitor thread, after its sleep. *)
Definition monitor_iteration (env : Env) : M unit :=
  running <- get g_noiseRunning ;;
  hasDeadline <- get g_hasDeadline ;;
  when (running && hasDeadline) (
    stopAt <- get g_noiseStopAt ;;
    when (stopAt <=? now env) (
      ma_device_stop ;;
      modify (Set_.noiseRunning false) ;;
      devInited <- get g_noiseDeviceInited ;;
      when devInited (
        ma_device_uninit ;;
        modify (Set_.noiseDeviceInited false)) ;;
      modify (Set_.hasDeadline false))).

(** The endpoint chosen at lines 174-180 of [start_noise]. *)
Definition choose_device (devices : option Z) (selected : Z) : option Z :=
  match devices with
  | Some playbackCount =>
      if (0 <=? selected) && (u32 selected <? playbackCount)
      then Some selected else None
  | None => None
  end.

(** The critical section of [start_noise] (after [ensure_audio_context]
    has returned and the lock is taken again). *)
Definition start_noise_locked (env : Env) (rate channels : Z) (amp : f32)
    (duration_ms : Z) : M bool :=
  inited <- get g_ctx_inited ;;
  if negb inited then ret false else
  running <- get g_noiseRunning ;;
  when running (ma_device_stop ;; modify (Set_.noiseRunning false)) ;;
  devInited <- get g_noiseDeviceInited ;;
  when devInited (ma_device_uninit ;; modify (Set_.noiseDeviceInited false)) ;;
  devices <- ma_context_get_devices env ;;
  selected <- get g_selectedPlaybackIndex ;;
  let config := mkDeviceConfig channels rate (choose_device devices selected) in
  modify (Set_.noiseState (mkNoiseState amp channels 1234567)) ;;
  ok <- ma_device_init env config ;;
  if negb ok then ret false else
  modify (Set_.noiseDeviceInited true) ;;
  ok <- ma_device_start env ;;
  if negb ok then
    ma_device_uninit ;;
    modify (Set_.noiseDeviceInited false) ;;
    ret false
  else
  modify (Set_.noiseRunning true) ;;
  modify (Set_.hasDeadline (0 <? duration_ms)) ;;
  hasDeadline <- get g_hasDeadline ;;
  when hasDeadline (
    modify (Set_.noiseStopAt (now env + duration_ms)) ;;
    start_monitor_if_needed) ;;
  ret true.

Definition start_noise (env : Env) (rate channels : Z) (amp : f32)
    (duration_ms : Z) : M bool :=
  ensure_audio_context env ;;
  start_noise_locked env rate channels amp duration_ms.

Definition stop_noise : M unit :=
  running <- get g_noiseRunning ;;
  when running (ma_device_stop ;; modify (Set_.noiseRunning false)) ;;
  devInited <- get g_noiseDeviceInited ;;
  when devInited (ma_device_uninit ;; modify (Set_.noiseDeviceInited false)) ;;
  modify (Set_.hasDeadline false).

(** *** HTTP handlers

    The JSON body of [POST /audio/whitenoise] after [cJSON_Parse]: a field
    is [Some] when [cJSON_IsNumber] holds for it, and carries the value
    after the cast to [ma_uint32] (resp. [float]).  An empty or unparsable
    body is the request with every field absent. *)
Record NoiseRequest : Type := mkNoiseRequest {
  jrate : option Z;
  jch : option Z;
  jdur : option Z;
  jamp : option f32
}.

Definition or_default {A} (o : option A) (d : A) : A :=
  match o with Some a => a | None => d end.

(** Lines 280-302: defaults, then the five range checks; the result is the
    argument list of the call to [start_noise]. *)
Definition whitenoise_params (req : NoiseRequest) : Z * Z * f32 * Z :=
  let rate := or_default (jrate req) 48000 in
  let channels := or_default (jch req) 2 in
  let duration_ms := or_default (jdur req) 3000 in
  let amp := or_default (jamp req) c0_2 in
  let channels := if (channels =? 0) || (8 <? channels) then 2 else channels in
  let rate := if rate <? 8000 then 8000 else rate in
  let amp := if ltb amp zero then zero else amp in
  let amp := if ltb one amp then one else amp in
  let duration_ms := if duration_ms <? 100 then 100 else duration_ms in
  (rate, channels, amp, duration_ms).

(** [POST /audio/whitenoise]: the outcome and the duration shown in the
    reply. *)
Definition post_audio_whitenoise (env : Env) (req : NoiseRequest)
  : M (bool * Z) :=
  let '(rate, channels, amp, duration_ms) := whitenoise_params req in
  ok <- start_noise env rate channels amp duration_ms ;;
  ret (ok, duration_ms).

(** [POST /audio/whitenoise/stop]. *)
Definition post_audio_whitenoise_stop : M unit := stop_noise.

(** The state effects of [render_audio_list]; the HTML is not modelled. *)
Definition render_audio_list (env : Env) : M unit :=
  ensure_audio_context env ;;
  inited <- get g_ctx_inited ;;
  when inited (_ <- ma_context_get_devices env ;; ret tt).

(** The critical section of [render_audio_list] alone, entered after
    [ensure_audio_context] has returned. *)
Definition render_audio_list_locked (env : Env) : M unit :=
  inited <- get g_ctx_inited ;;
  when inited (_ <- ma_context_get_devices env ;; ret tt).

(** [POST /audio/select]: [index] is the result of [std::stoi], [None]
    when it throws. *)
Definition post_audio_select (env : Env) (index : option Z) : M unit :=
  let idx := or_default index (-1) in
  modify (Set_.selectedPlaybackIndex idx) ;;
  render_audio_list env.

(** The range checks of [main] in [noise.c], lines 67-71. *)
Definition noise_main_params (sampleRate channels : Z) (amplitude : f32)
    (durationSec : Z) : Z * Z * f32 * Z :=
  let channels := if (channels =? 0) || (8 <? channels) then 2 else channels in
  let sampleRate := if sampleRate <? 8000 then 8000 else sampleRate in
  let amplitude := if ltb amplitude zero then zero else amplitude in
  let amplitude := if ltb one amplitude then one else amplitude in
  let durationSec := if durationSec <=? 0 then 1 else durationSec in
  (sampleRate, channels, amplitude, durationSec).

(** ** Interleavings

    The critical sections that the request threads, the monitor thread and
    the audio thread can execute.  [OpCallback] is the real-time callback;
    the subsystem only invokes it while the device runs.  [OpList] is the
    critical section of [render_audio_list]. *)
Inductive Op : Type :=
| OpEnsureContext
| OpStart (rate channels : Z) (amp : f32) (duration_ms : Z)
| OpStop
| OpSelect (idx : Z)
| OpMonitor
| OpCallback (frameCount : Z)
| OpList.

Definition exec {A} (m : M A) (g : Globals) : Globals := snd (m g).

Definition step (env : Env) (op : Op) (g : Globals) : Globals :=
  match op with
  | OpEnsureContext => exec (ensure_audio_context env) g
  | OpStart rate channels amp duration_ms =>
      exec (start_noise_locked env rate channels amp duration_ms) g
  | OpStop => exec stop_noise g
  | OpSelect idx => exec (modify (Set_.selectedPlaybackIndex idx)) g
  | OpMonitor =>
      if g_monitorRunning g then exec (monitor_iteration env) g else g
  | OpCallback frameCount =>
      if g_noiseRunning g
      then Set_.noiseState (snd (data_callback frameCount (g_noiseState g))) g
      else g
  | OpList => exec (render_audio_list_locked env) g
  end.

Fixpoint run (script : list (Env * Op)) (g : Globals) : Globals :=
  match script with
  | [] => g
  | (env, op) :: rest => run rest (step env op g)
  end.

Definition reachable (g : Globals) : Prop :=
  exists script, run script initial = g.

(** *** Live device handles

    A handle comes to life with a successful [ma_device_init] and dies with
    [ma_device_uninit]. *)
Definition delta (e : Event) : Z :=
  match e with
  | EvDeviceInit _ true => 1
  | EvDeviceUninit => -1
  | _ => 0
  end.

Fixpoint live (log : list Event) : Z :=
  match log with
  | [] => 0
  | e :: rest => delta e + live rest
  end.

(** ** [noise.c]: the command line player *)

(** The conversions of the C library: the value each one returns for a
    text (for [atof], after the cast to [float]). *)
Record Libc : Type := mkLibc {
  strtoul : String.string -> Z;
  strtol : String.string -> Z;
  atof : String.string -> f32
}.

(** Conversion to [int], by wrap-around. *)
Definition s32 (z : Z) : Z := (z + 2 ^ 31) mod 2 ^ 32 - 2 ^ 31.

(** The four locals of [main] that the flags set. *)
Record Options : Type := mkOptions {
  opt_sampleRate : Z;
  opt_channels : Z;
  opt_durationSec : Z;
  opt_amplitude : f32
}.

Definition default_options : Options := mkOptions 48000 2 5 c0_2.

Inductive Parsed : Type :=
| ParsedOk (o : Options)
| ParsedExit (code : Z).

Definition is_help (a : String.string) : bool :=
  String.eqb a "-h"%string || String.eqb a "--help"%string.

(** The loop of [main] over [argv[1..]]; [i + 1 < argc] is the test that
    the list continues after [a].  Both exits print the usage text. *)
Fixpoint parse_args (libc : Libc) (args : list String.string) (o : Options)
  : Parsed :=
  match args with
  | [] => ParsedOk o
  | a :: rest =>
      match rest with
      | v :: rest' =>
          if String.eqb a "--rate"%string then
            parse_args libc rest'
              (mkOptions (u32 (strtoul libc v)) (opt_channels o)
                         (opt_durationSec o) (opt_amplitude o))
          else if String.eqb a "--channels"%string then
            parse_args libc rest'
              (mkOptions (opt_sampleRate o) (u32 (strtoul libc v))
                         (opt_durationSec o) (opt_amplitude o))
          else if String.eqb a "--duration"%string then
            parse_args libc rest'
              (mkOptions (opt_sampleRate o) (opt_channels o)
                         (s32 (strtol libc v)) (opt_amplitude o))
          else if String.eqb a "--amp"%string then
            parse_args libc rest'
              (mkOptions (opt_sampleRate o) (opt_channels o)
                         (opt_durationSec o) (atof libc v))
          else if is_help a then ParsedExit 0
          else ParsedExit 1
      | [] => if is_help a then ParsedExit 0 else ParsedExit 1
      end
  end.

(** What [main] prints and calls, in order. *)
Inductive Output : Type :=
| OutUsage
| OutFailedOpen
| OutPlaying (sampleRate channels durationSec : Z) (amplitude : f32)
| OutFailedStart
| OutDone
| Sleep (ms : Z)
| Ma (e : Event).

(** The loop on [ma_sleep(step)], [elapsed] being a [ma_uint32]. *)
Fixpoint sleep_steps (fuel : nat) (elapsed totalMS : Z)
  : option (list Output) :=
  match fuel with
  | O => None
  | S fuel' =>
      if elapsed <? totalMS then
        match sleep_steps fuel' (u32 (elapsed + 50)) totalMS with
        | Some out => Some (Sleep 50 :: out)
        | None => None
        end
      else Some []
  end.

(** The loop on [usleep(100000)] of the Apple build, [i] being an [int]. *)
Fixpoint usleep_steps (fuel : nat) (i bound : Z) : option (list Output) :=
  match fuel with
  | O => None
  | S fuel' =>
      if i <? bound then
        match usleep_steps fuel' (i + 1) bound with
        | Some out => Some (Sleep 100 :: out)
        | None => None
        end
      else Some []
  end.

(** [main] of [noise.c]: the exit status and the output, or [None] when
    the fuel does not cover the sleep loop.  [apple] selects the branch of
    the [#ifdef], [time] is [time(NULL)]. *)
Definition noise_main (libc : Libc) (apple : bool) (env : Env) (time : Z)
    (fuel : nat) (args : list String.string) : option (Z * list Output) :=
  match parse_args libc args default_options with
  | ParsedExit code => Some (code, [OutUsage])
  | ParsedOk o =>
      let '(sampleRate, channels, amplitude, durationSec) :=
        noise_main_params (opt_sampleRate o) (opt_channels o)
                          (opt_amplitude o) (opt_durationSec o) in
      let config := mkDeviceConfig channels sampleRate None in
      if negb (device_init_ok env config) then
        Some (1, [Ma (EvDeviceInit config false); OutFailedOpen])
      else
        let opened :=
          [Ma (EvDeviceInit config true);
           OutPlaying sampleRate channels durationSec amplitude] in
        if negb (device_start_ok env) then
          Some (1, opened ++ [Ma (EvDeviceStart false); OutFailedStart;
                              Ma EvDeviceUninit])
        else
          let slept :=
            if apple then usleep_steps fuel 0 (s32 (durationSec * 10))
            else sleep_steps fuel 0 (u32 (s32 (durationSec * 1000))) in
          match slept with
          | None => None
          | Some sleeps =>
              Some (0, opened ++ [Ma (EvDeviceStart true)] ++ sleeps
                       ++ [Ma EvDeviceStop; Ma EvDeviceUninit; OutDone])
          end
  end.

(** * Vocabulary of the statements *)

(** [within c log]: starting from [c] live handles, the count stays in
    [0..1] after every call of [log]. *)
Fixpoint within (c : Z) (log : list Event) : bool :=
  match log with
  | [] => true
  | e :: rest =>
      (0 <=? c + delta e) && (c + delta e <=? 1) && within (c + delta e) rest
  end.

(** The number of handles the flags account for. *)
Definition handles (g : Globals) : Z :=
  if g_noiseDeviceInited g then 1 else 0.

(** What every critical section preserves. *)
Record Inv (g : Globals) : Prop := mkInv {
  inv_running : g_noiseRunning g = true -> g_noiseDeviceInited g = true;
  inv_ctx : g_noiseDeviceInited g = true -> g_ctx_inited g = true;
  inv_live : live (ma_log g) = handles g;
  inv_within : within 0 (ma_log g) = true
}.

(** Sample environments and states: a subsystem with two endpoints where
    everything succeeds, one where [ma_device_init] fails, and the state
    after a successful three-second start from the initial state. *)
Definition env_ok : Env := mkEnv true (Some 2) (fun _ => true) true 0.

Definition playing : Globals :=
  exec (start_noise env_ok 48000 2 c0_2 3000) initial.

Definition env_init_fails : Env :=
  mkEnv true (Some 2) (fun _ => false) true 10.

(** A timed session is playing and a reconfiguring [start_noise] fails at
    [ma_device_init]. *)
Definition after_failed_reconfigure : Globals :=
  exec (start_noise env_init_fails 48000 2 c0_2 3000) playing.


(** Sample request bodies. *)
Definition zero_duration_request : NoiseRequest :=
  mkNoiseRequest None None (Some 0) None.

Definition nine_channels_request : NoiseRequest :=
  mkNoiseRequest None (Some 9) None None.

Definition no_channels_request : NoiseRequest :=
  mkNoiseRequest None (Some 0) None None.

(** Frames asked for by a sequence of callbacks. *)
Definition total_frames (frames : list Z) : Z := fold_right Z.add 0 frames.

(** The 24-bit mantissa of a positive integer of at most 24 bits. *)
Definition canon (w : positive) : positive :=
  Z.to_pos (Zpos w * 2 ^ (24 - Zpos (digits2_pos w))).

(** The value computed by [frand_signed] from the masked seed [m]. *)
Definition unit_of (m : Z) :=
  sub (mul (div (of_Z m) (of_Z 0x01000000)) two) one.

(** Neither infinite nor NaN. *)
Definition finite (x : spec_float) : bool :=
  match x with
  | S754_zero _ | S754_finite _ _ _ => true
  | _ => false
  end.

(** Magnitude at most one: zero, or [M * 2^E] with [M <= 2^-E]. *)
Definition at_most_one (x : spec_float) : Prop :=
  match x with
  | S754_zero _ => True
  | S754_finite _ M E => E <= 0 /\ Zpos M <= 2 ^ (- E)
  | _ => False
  end.

(** The amplitude of a denormal: the smallest positive binary32. *)
Definition tiny : f32 := S754_finite false 1 (-149).

(** [2^-127], a denormal of [2^22] units: the largest amplitude at which
    a sample can reach the amplitude. *)
Definition half_min : f32 := S754_finite false 4194304 (-149).

(** The denormal next above [half_min]. *)
Definition above_half_min : f32 := S754_finite false 4194305 (-149).

(** Successful [ma_context_init] calls in a log. *)
Definition context_inits (log : list Event) : Z :=
  fold_right (fun e n => match e with EvContextInit true => 1 + n | _ => n end)
             0 log.

(** A [ma_context_init] that failed. *)
Definition failed_context_init (e : Event) : Prop := e = EvContextInit false.

(** What every critical section preserves, beyond [Inv]. *)
Record Inv2 (g : Globals) : Prop := mkInv2 {
  inv2_device : g_noiseDeviceInited g = g_noiseRunning g;
  inv2_ctx : g_noiseRunning g = true -> g_ctx_inited g = true;
  inv2_monitor : g_hasDeadline g = true -> g_monitorRunning g = true;
  inv2_contexts :
    context_inits (ma_log g) = if g_ctx_inited g then 1 else 0;
  inv2_before : g_ctx_inited g = false -> Forall failed_context_init (ma_log g)
}.

(** A subsystem whose context cannot be initialised. *)
Definition env_no_context : Env := mkEnv false None (fun _ => true) true 0.

(** A subsystem that can only create the device on the default endpoint. *)
Definition env_default_only : Env :=
  mkEnv true (Some 2)
        (fun cfg => match cfg_pDeviceID cfg with None => true | _ => false end)
        true 0.

(** An amplitude that is a finite non-negative binary32 value. *)
Definition usable (a : f32) : Prop :=
  valid a = true /\ finite a = true /\ leb zero a = true.

(** [x] lies between [-a] and [a], ends included. *)
Definition between (a x : f32) : Prop :=
  leb (opp a) x = true /\ leb x a = true.

(** A zero of either sign. *)
Definition is_zero (x : f32) : Prop := exists s, x = S754_zero s.

(** The affine map [x |-> A x + C] on 24 bits, and its square. *)
Definition aff (p : Z * Z) (x : Z) : Z := (fst p * x + snd p) mod 2 ^ 24.

Definition dbl (p : Z * Z) : Z * Z :=
  ((fst p * fst p) mod 2 ^ 24, (fst p * snd p + snd p) mod 2 ^ 24).

(** The two amplitude checks, as both front ends make them. *)
Definition clamp_amp (a : f32) : f32 :=
  let a := if ltb a zero then zero else a in
  if ltb one a then one else a.

(** An amplitude in [[0, 1]]. *)
Definition unit_amp (a : f32) : Prop := usable a /\ leb a one = true.

(** The flags that take a value. *)
Inductive Flag : Type := FlagRate | FlagChannels | FlagDuration | FlagAmp.

Definition flag_text (f : Flag) : String.string :=
  match f with
  | FlagRate => "--rate"
  | FlagChannels => "--channels"
  | FlagDuration => "--duration"
  | FlagAmp => "--amp"
  end%string.

(** The assignment made for flag [f] followed by the text [v]. *)
Definition set_flag (libc : Libc) (o : Options) (fv : Flag * String.string)
  : Options :=
  let '(f, v) := fv in
  match f with
  | FlagRate =>
      mkOptions (u32 (strtoul libc v)) (opt_channels o) (opt_durationSec o)
                (opt_amplitude o)
  | FlagChannels =>
      mkOptions (opt_sampleRate o) (u32 (strtoul libc v)) (opt_durationSec o)
                (opt_amplitude o)
  | FlagDuration =>
      mkOptions (opt_sampleRate o) (opt_channels o) (s32 (strtol libc v))
                (opt_amplitude o)
  | FlagAmp =>
      mkOptions (opt_sampleRate o) (opt_channels o) (opt_durationSec o)
                (atof libc v)
  end.

(** The argument list made of flags, each followed by its value. *)
Definition command_line (pairs : list (Flag * String.string))
  : list String.string :=
  flat_map (fun fv => [flag_text (fst fv); snd fv]) pairs.

(** The calls to the subsystem among the output of [main]. *)
Definition ma_events (out : list Output) : list Event :=
  flat_map (fun o => match o with Ma e => [e] | _ => [] end) out.

(** A sleep, and the milliseconds slept in an output. *)
Definition is_sleep (o : Output) : Prop := exists ms, o = Sleep ms.

Definition total_sleep (out : list Output) : Z :=
  fold_right (fun o n => match o with Sleep ms => ms + n | _ => n end) 0 out.

(** A C library for the examples: every conversion returns 0. *)
Definition libc_zero : Libc := mkLibc (fun _ => 0) (fun _ => 0) (fun _ => zero).

(** * Properties *)

(** ** Bookkeeping of the log *)

Lemma live_app (l1 l2 : list Event) : live (l1 ++ l2) = live l1 + live l2.
Proof.
  induction l1 as [|e l1 IH]; simpl; [reflexivity|].
  rewrite IH. ring.
Qed.

Lemma within_app (c : Z) (l1 l2 : list Event) :
  within c (l1 ++ l2) = within c l1 && within (c + live l1) l2.
Proof.
  revert c; induction l1 as [|e l1 IH]; intro c; simpl.
  - now rewrite Z.add_0_r.
  - rewrite IH, Z.add_assoc, !andb_assoc. reflexivity.
Qed.

Lemma within_prefix (c : Z) (log pre suf : list Event) :
  within c log = true -> log = pre ++ suf ->
  0 <= c <= 1 -> 0 <= c + live pre <= 1.
Proof.
  intros Hw -> Hc. revert c Hw Hc.
  induction pre as [|e pre IH]; intros c Hw Hc; simpl in *.
  - lia.
  - apply andb_prop in Hw as [Hw1 Hw2].
    apply andb_prop in Hw1 as [Hlo Hhi].
    apply Z.leb_le in Hlo, Hhi.
    specialize (IH (c + delta e) Hw2 (conj Hlo Hhi)). lia.
Qed.

(** ** The session invariant *)

Ltac unfold_m :=
  cbv [exec start_noise start_noise_locked stop_noise ensure_audio_context
       monitor_iteration start_monitor_if_needed post_audio_whitenoise
       post_audio_whitenoise_stop post_audio_select render_audio_list
       render_audio_list_locked
       ma_context_init ma_context_get_devices ma_device_init ma_device_start
       ma_device_stop ma_device_uninit bind ret get modify when
       Set_.ctx_inited Set_.selectedPlaybackIndex Set_.noiseDeviceInited
       Set_.noiseRunning Set_.noiseState Set_.monitorRunning
       Set_.hasDeadline Set_.noiseStopAt Set_.log
       g_ctx_inited g_selectedPlaybackIndex g_noiseDeviceInited
       g_noiseRunning g_noiseState g_monitorRunning g_hasDeadline
       g_noiseStopAt ma_log fst snd].

Ltac split_ifs :=
  repeat match goal with
    | |- context [if negb ?b then _ else _] => destruct b eqn:?; cbn [negb]
    | |- context [if ?b then _ else _] => destruct b eqn:?
    end;
  cbn [fst snd negb andb orb
       g_ctx_inited g_selectedPlaybackIndex g_noiseDeviceInited
       g_noiseRunning g_noiseState g_monitorRunning g_hasDeadline
       g_noiseStopAt ma_log] in *.

Ltac inv_goal :=
  constructor;
  cbn [g_ctx_inited g_noiseDeviceInited g_noiseRunning ma_log handles];
  rewrite ?within_app, ?live_app;
  cbn [live within delta];
  try congruence.

Lemma Inv_initial : Inv initial.
Proof. constructor; reflexivity || discriminate. Qed.

Lemma Inv_step (env : Env) (op : Op) (g : Globals) :
  Inv g -> Inv (step env op g).
Proof.
  intros [Hr Hc Hl Hw]. destruct g as [ci sel di ru st mo hd sa lg].
  unfold handles in *; cbn [g_ctx_inited g_noiseDeviceInited g_noiseRunning ma_log] in *.
  destruct op; cbn [step]; unfold_m;
    cbn [g_ctx_inited g_selectedPlaybackIndex g_noiseDeviceInited
         g_noiseRunning g_noiseState g_monitorRunning g_hasDeadline
         g_noiseStopAt ma_log];
    split_ifs; cbn [snd];
    inv_goal;
    try (rewrite Hw, Hl; destruct di; try reflexivity;
         cbn; (reflexivity || (exfalso; auto; intuition congruence)));
    try (rewrite Hl; destruct di; cbn; (lia || (exfalso; intuition congruence)));
    try (intuition congruence).
Qed.

Lemma Inv_run (script : list (Env * Op)) (g : Globals) :
  Inv g -> Inv (run script g).
Proof.
  revert g; induction script as [|[env op] rest IH]; intros g Hg; simpl.
  - exact Hg.
  - apply IH, Inv_step, Hg.
Qed.

Lemma Inv_reachable (g : Globals) : reachable g -> Inv g.
Proof. intros [script <-]. apply Inv_run, Inv_initial. Qed.

(** A call to [start_noise] is the two critical sections in a row. *)
Lemma start_noise_steps (env : Env) (rate ch : Z) (amp : f32) (dur : Z)
    (g : Globals) :
  exec (start_noise env rate ch amp dur) g =
  run [(env, OpEnsureContext); (env, OpStart rate ch amp dur)] g.
Proof.
  cbn [run step]. unfold exec, start_noise, bind.
  destruct (ensure_audio_context env g) as [[] g1]. reflexivity.
Qed.

Lemma run_app (s1 s2 : list (Env * Op)) (g : Globals) :
  run (s1 ++ s2) g = run s2 (run s1 g).
Proof.
  revert g; induction s1 as [|[env op] s1 IH]; intro g; simpl; auto.
Qed.

Lemma reachable_run (script : list (Env * Op)) (g : Globals) :
  reachable g -> reachable (run script g).
Proof.
  intros [s0 <-]. exists (s0 ++ script). apply run_app.
Qed.

(** ** Overlapping devices *)

(** C1. When [start_noise] is called on a running session, the calls it
    makes to the subsystem begin with the stop and the release of the
    current device, no handle is live when the new device is created; and
    along every interleaving of critical sections the number of live device
    handles is 0 or 1 after each subsystem call. *)
Theorem start_noise_no_overlap :
  (forall g env rate ch amp dur,
      reachable g -> g_noiseRunning g = true ->
      exists cfg ok rest,
        ma_log (exec (start_noise env rate ch amp dur) g) =
          ma_log g ++ [EvDeviceStop; EvDeviceUninit; EvGetDevices]
                   ++ EvDeviceInit cfg ok :: rest
        /\ live (ma_log g ++ [EvDeviceStop; EvDeviceUninit; EvGetDevices]) = 0)
  /\ (forall script pre suf,
         ma_log (run script initial) = pre ++ suf -> 0 <= live pre <= 1).
Proof.
  split.
  - intros g env rate ch amp dur Hreach Hrun.
    destruct (Inv_reachable g Hreach) as [Hr Hc Hl _].
    specialize (Hr Hrun). specialize (Hc Hr).
    destruct g as [ci sel di ru st mo hd sa lg].
    unfold handles in Hl.
    cbn [g_ctx_inited g_noiseDeviceInited g_noiseRunning ma_log] in *.
    subst ci di ru. rewrite live_app, Hl.
    unfold_m. cbn [negb g_ctx_inited g_noiseRunning g_noiseDeviceInited
                   g_selectedPlaybackIndex ma_log].
    set (cfg := mkDeviceConfig ch rate _).
    exists cfg, (device_init_ok env cfg).
    destruct (device_init_ok env cfg); cbn [negb].
    + destruct (device_start_ok env); cbn [negb];
        cbn [g_hasDeadline g_monitorRunning];
        [destruct (0 <? dur); [destruct mo|]|]; cbn [negb snd ma_log];
        rewrite <- ?app_assoc; cbn [app]; eexists; split; reflexivity.
    + cbn [snd ma_log]. rewrite <- ?app_assoc; cbn [app].
      exists []. split; reflexivity.
  - intros script pre suf Hlog.
    pose proof (Inv_run script initial Inv_initial) as [_ _ _ Hw].
    pose proof (within_prefix 0 _ pre suf Hw Hlog). lia.
Qed.

Lemma reachable_playing : reachable playing.
Proof.
  unfold playing. rewrite start_noise_steps.
  apply reachable_run. exists []. reflexivity.
Defined.

Lemma start_noise_no_overlap_witness :
  (exists cfg ok rest,
      ma_log (exec (start_noise env_ok 44100 1 one 0) playing) =
        ma_log playing ++ [EvDeviceStop; EvDeviceUninit; EvGetDevices]
                       ++ EvDeviceInit cfg ok :: rest
      /\ live (ma_log playing ++ [EvDeviceStop; EvDeviceUninit; EvGetDevices]) = 0)
  /\ 0 <= live [EvContextInit true; EvGetDevices;
                EvDeviceInit (mkDeviceConfig 2 48000 None) true] <= 1.
Proof.
  split.
  - apply (proj1 start_noise_no_overlap playing env_ok 44100 1 one 0).
    + exact reachable_playing.
    + reflexivity.
  - apply (proj2 start_noise_no_overlap
             [(env_ok, OpEnsureContext); (env_ok, OpStart 48000 2 c0_2 3000)]
             [EvContextInit true; EvGetDevices;
              EvDeviceInit (mkDeviceConfig 2 48000 None) true]
             [EvDeviceStart true]).
    reflexivity.
Defined.

(** ** Failure of [start_noise] *)

(** A [false] from [start_noise] leaves no session and no device. *)
Lemma start_noise_false_idle (g : Globals) (env : Env) (rate ch : Z)
    (amp : f32) (dur : Z) :
  reachable g ->
  let r := start_noise env rate ch amp dur g in
  fst r = false ->
  g_noiseRunning (snd r) = false
  /\ g_noiseDeviceInited (snd r) = false
  /\ live (ma_log (snd r)) = 0.
Proof.
  intros Hreach r.
  pose proof (Inv_reachable _
                (reachable_run [(env, OpEnsureContext);
                                (env, OpStart rate ch amp dur)] g Hreach))
    as [_ _ Hl' _].
  rewrite <- start_noise_steps in Hl'. unfold exec in Hl'. fold r in Hl'.
  unfold handles in Hl'.
  destruct (Inv_reachable g Hreach) as [Hr Hc Hl _].
  subst r. revert Hl'.
  destruct g as [ci sel di ru st mo hd sa lg].
  unfold handles in Hl.
  cbn [g_ctx_inited g_noiseDeviceInited g_noiseRunning ma_log
       g_selectedPlaybackIndex] in *.
  unfold_m.
  split_ifs; intros Hl' Hfalse; try discriminate Hfalse;
    repeat split; try reflexivity; try assumption;
    try (intuition congruence);
    try (destruct ru; intuition congruence).
Qed.

(** C2, the part that fails: a start that fails at [ma_device_init] on a
    playing session leaves state behind.  The generator already holds the
    amplitude, channel count and seed of the request that failed; and the
    deadline flag of the session that was torn down is still set. *)
Lemma failed_start_leaves_state :
  let r := start_noise env_init_fails 44100 1 one 0 playing in
  fst r = false
  /\ g_noiseState playing = mkNoiseState c0_2 2 1234567
  /\ g_noiseState (snd r) = mkNoiseState one 1 1234567
  /\ g_noiseState (snd r) <> g_noiseState playing
  /\ g_hasDeadline (snd r) = true.
Proof. repeat split. discriminate. Qed.

(** C2, amended.  From any reachable state: if the subsystem cannot create
    the device or cannot start it, [start_noise] returns [false]; whenever
    [start_noise] returns [false] the session is not running, the device is
    not initialised and no device handle is live.  The generator is not
    preserved: when the failure is that of the device, it holds the
    amplitude and the channel count of the failed request with the seed
    reset to 1234567, written before the device is created; the selected
    ordinal and the monitor flag are as before. *)
Theorem start_noise_failure_state :
  forall g env rate ch amp dur,
    reachable g ->
    let cfg := mkDeviceConfig ch rate
                 (choose_device (playback_devices env)
                                (g_selectedPlaybackIndex g)) in
    let r := start_noise env rate ch amp dur g in
    (device_init_ok env cfg = false \/ device_start_ok env = false ->
     fst r = false)
    /\ (fst r = false ->
        g_noiseRunning (snd r) = false
        /\ g_noiseDeviceInited (snd r) = false
        /\ live (ma_log (snd r)) = 0)
    /\ (g_ctx_inited g = true \/ ctx_init_ok env = true ->
        device_init_ok env cfg = false \/ device_start_ok env = false ->
        g_noiseState (snd r) = mkNoiseState amp ch 1234567
        /\ g_selectedPlaybackIndex (snd r) = g_selectedPlaybackIndex g
        /\ g_monitorRunning (snd r) = g_monitorRunning g
        /\ g_ctx_inited (snd r) = true).
Proof.
  intros g env rate ch amp dur Hreach cfg r. split; [|split].
  - subst r cfg. destruct g as [ci sel di ru st mo hd sa lg].
    cbn [g_selectedPlaybackIndex]. unfold_m.
    split_ifs; intros [H | H]; congruence.
  - apply start_noise_false_idle, Hreach.
  - subst r cfg. destruct g as [ci sel di ru st mo hd sa lg].
    cbn [g_selectedPlaybackIndex g_ctx_inited g_monitorRunning].
    intros Hctx Hfail. unfold_m.
    split_ifs; repeat split;
      destruct Hctx as [Hctx | Hctx]; destruct Hfail as [Hf | Hf];
      congruence.
Qed.

Lemma start_noise_failure_state_witness :
  let r := start_noise env_init_fails 44100 1 one 0 playing in
  fst r = false
  /\ g_noiseRunning (snd r) = false
  /\ g_noiseDeviceInited (snd r) = false
  /\ live (ma_log (snd r)) = 0
  /\ g_noiseState (snd r) = mkNoiseState one 1 1234567
  /\ g_selectedPlaybackIndex (snd r) = g_selectedPlaybackIndex playing
  /\ g_monitorRunning (snd r) = g_monitorRunning playing
  /\ g_ctx_inited (snd r) = true.
Proof.
  destruct (start_noise_failure_state playing env_init_fails 44100 1 one 0
              reachable_playing) as (Hfalse & Hidle & Hstate).
  cbv zeta. split.
  - apply Hfalse. left. reflexivity.
  - split; [apply Hidle, Hfalse; left; reflexivity|].
    split; [apply Hidle, Hfalse; left; reflexivity|].
    split; [apply Hidle, Hfalse; left; reflexivity|].
    apply Hstate; left; reflexivity.
Defined.

(** C10. A reconfiguring [start_noise] that fails has already stopped and
    released the running device when the failing subsystem call is made,
    creates nothing that survives, and leaves the session not running with
    no device. *)
Theorem failed_reconfigure_ends_idle :
  forall g env rate ch amp dur,
    reachable g -> g_noiseRunning g = true ->
    fst (start_noise env rate ch amp dur g) = false ->
    let g' := exec (start_noise env rate ch amp dur) g in
    exists cfg tail,
      ma_log g' =
        ma_log g ++ [EvDeviceStop; EvDeviceUninit; EvGetDevices] ++ tail
      /\ (tail = [EvDeviceInit cfg false]
          \/ tail = [EvDeviceInit cfg true; EvDeviceStart false;
                     EvDeviceUninit])
      /\ g_noiseRunning g' = false
      /\ g_noiseDeviceInited g' = false
      /\ live (ma_log g') = 0.
Proof.
  intros g env rate ch amp dur Hreach Hrun Hfail g'.
  pose proof (start_noise_false_idle g env rate ch amp dur Hreach Hfail)
    as Hidle.
  fold (exec (start_noise env rate ch amp dur) g) in Hidle.
  fold g' in Hidle.
  destruct (Inv_reachable g Hreach) as [Hr Hc _ _].
  specialize (Hr Hrun). specialize (Hc Hr).
  exists (mkDeviceConfig ch rate
            (choose_device (playback_devices env) (g_selectedPlaybackIndex g))).
  revert Hfail Hidle. subst g'.
  destruct g as [ci sel di ru st mo hd sa lg].
  cbn [g_ctx_inited g_noiseDeviceInited g_noiseRunning ma_log
       g_selectedPlaybackIndex] in *.
  subst ci di ru. unfold_m. cbn [negb].
  split_ifs; try discriminate; intros _ Hidle;
    rewrite <- ?app_assoc in *; cbn [app] in *;
    eexists; (split; [reflexivity|]); split; auto.
Qed.

Lemma failed_reconfigure_ends_idle_witness :
  let g' := exec (start_noise env_init_fails 44100 1 one 0) playing in
  exists cfg tail,
    ma_log g' =
      ma_log playing ++ [EvDeviceStop; EvDeviceUninit; EvGetDevices] ++ tail
    /\ (tail = [EvDeviceInit cfg false]
        \/ tail = [EvDeviceInit cfg true; EvDeviceStart false; EvDeviceUninit])
    /\ g_noiseRunning g' = false
    /\ g_noiseDeviceInited g' = false
    /\ live (ma_log g') = 0.
Proof.
  apply (failed_reconfigure_ends_idle playing env_init_fails 44100 1 one 0).
  - exact reachable_playing.
  - reflexivity.
  - reflexivity.
Defined.

(** ** The deadline flag *)

Lemma reachable_after_failed_reconfigure : reachable after_failed_reconfigure.
Proof.
  unfold after_failed_reconfigure. rewrite start_noise_steps.
  apply reachable_run, reachable_playing.
Qed.

(** C5. After a timed session is started and a second [start_noise] fails,
    the session is not running but [g_hasDeadline] is still set: the
    tear-down at the head of [start_noise] does not clear it, although
    [stop_noise] and the monitor do. *)
Theorem failed_start_keeps_deadline_flag :
  reachable after_failed_reconfigure
  /\ fst (start_noise env_init_fails 48000 2 c0_2 3000 playing) = false
  /\ g_noiseRunning after_failed_reconfigure = false
  /\ g_noiseDeviceInited after_failed_reconfigure = false
  /\ g_hasDeadline after_failed_reconfigure = true.
Proof.
  split; [exact reachable_after_failed_reconfigure | repeat split].
Qed.

(** What does hold from every state: [stop_noise] clears the flag, and a
    successful [start_noise] sets it exactly when the duration is
    positive. *)
Lemma stop_noise_post (g : Globals) :
  let g' := exec stop_noise g in
  g_noiseRunning g' = false /\ g_noiseDeviceInited g' = false
  /\ g_hasDeadline g' = false.
Proof.
  destruct g as [ci sel di ru st mo hd sa lg].
  unfold_m. split_ifs. all: repeat split.
Qed.

Lemma start_noise_success_deadline (env : Env) (rate ch : Z) (amp : f32)
    (dur : Z) (g : Globals) :
  fst (start_noise env rate ch amp dur g) = true ->
  let g' := exec (start_noise env rate ch amp dur) g in
  g_noiseRunning g' = true /\ g_noiseDeviceInited g' = true
  /\ g_hasDeadline g' = (0 <? dur)
  /\ (0 < dur -> g_noiseStopAt g' = now env + dur
                 /\ g_monitorRunning g' = true)
  /\ g_noiseState g' = mkNoiseState amp ch 1234567.
Proof.
  destruct g as [ci sel di ru st mo hd sa lg].
  unfold_m. destruct (Z.ltb_spec 0 dur) as [Hdur | Hdur];
    split_ifs; intro Hok; try discriminate Hok; repeat split;
    try reflexivity; try congruence; lia.
Qed.

(** ** [stop_noise] *)

Lemma stop_noise_idempotent (g : Globals) :
  exec stop_noise (exec stop_noise g) = exec stop_noise g.
Proof.
  destruct g as [ci sel di ru st mo hd sa lg].
  unfold_m. split_ifs; try discriminate; reflexivity.
Qed.

Lemma stop_noise_idle_clean (g : Globals) :
  g_noiseRunning g = false -> g_noiseDeviceInited g = false ->
  g_hasDeadline g = false -> exec stop_noise g = g.
Proof.
  destruct g as [ci sel di ru st mo hd sa lg]; cbn.
  intros -> -> ->. reflexivity.
Qed.

(** C7. In the reachable state left by a failed reconfiguration the session
    is not running, and yet [stop_noise] changes the state: it clears the
    deadline flag that the failed [start_noise] left set. *)
Theorem stop_noise_changes_idle_state :
  reachable after_failed_reconfigure
  /\ g_noiseRunning after_failed_reconfigure = false
  /\ g_noiseDeviceInited after_failed_reconfigure = false
  /\ g_hasDeadline after_failed_reconfigure = true
  /\ g_hasDeadline (exec stop_noise after_failed_reconfigure) = false
  /\ exec stop_noise after_failed_reconfigure <> after_failed_reconfigure.
Proof.
  split; [exact reachable_after_failed_reconfigure | repeat split].
  intro H. apply (f_equal g_hasDeadline) in H. discriminate H.
Qed.

(** ** Duration zero *)





(** ** Endpoint selection *)

Lemma choose_device_out_of_range (devices : option Z) (idx : Z) :
  - 2 ^ 31 <= idx < 2 ^ 31 ->
  (idx < 0
   \/ devices = None
   \/ exists count, devices = Some count /\ count <= idx) ->
  choose_device devices idx = None.
Proof.
  intros Hint Hout. unfold choose_device.
  destruct devices as [count|]; [|reflexivity].
  destruct (0 <=? idx) eqn:Hnn; cbn [andb]; [|reflexivity].
  apply Z.leb_le in Hnn.
  destruct Hout as [Hneg | [Hnone | (c & Hc & Hle)]];
    [lia | discriminate |].
  injection Hc as ->.
  unfold u32. rewrite Z.mod_small by lia.
  destruct (idx <? c) eqn:E; [apply Z.ltb_lt in E; lia | reflexivity].
Qed.

Lemma choose_device_in_range (count idx : Z) :
  0 <= idx < count -> count < 2 ^ 32 ->
  choose_device (Some count) idx = Some idx.
Proof.
  intros Hidx Hc. unfold choose_device, u32.
  rewrite Z.mod_small by lia.
  destruct (Z.leb_spec 0 idx); [|lia].
  destruct (Z.ltb_spec idx count); [reflexivity | lia].
Qed.

(** A [start_noise] that finds the context, and whose device is created
    and started, creates the device on the endpoint that [choose_device]
    gives for the stored ordinal. *)
Lemma start_noise_success_log (g : Globals) (env : Env) (rate ch : Z)
    (amp : f32) (dur : Z) :
  g_ctx_inited g = true \/ ctx_init_ok env = true ->
  let cfg := mkDeviceConfig ch rate
               (choose_device (playback_devices env)
                              (g_selectedPlaybackIndex g)) in
  device_init_ok env cfg = true -> device_start_ok env = true ->
  let r := start_noise env rate ch amp dur g in
  fst r = true
  /\ g_noiseRunning (snd r) = true
  /\ exists pre,
       ma_log (snd r) =
         ma_log g ++ pre ++ [EvDeviceInit cfg true; EvDeviceStart true].
Proof.
  intros Hctx cfg Hinit Hstart. subst cfg.
  destruct g as [ci sel di ru st mo hd sa lg].
  cbn [g_selectedPlaybackIndex g_ctx_inited ma_log] in *.
  destruct env as [cio pd dio dso nw].
  cbn [ctx_init_ok playback_devices device_init_ok device_start_ok] in *.
  subst dso.
  assert (Hpre : forall (l x : list Event) (e1 e2 : Event),
             exists pre, l ++ x ++ [e1; e2] = l ++ pre ++ [e1; e2])
    by (intros l x e1 e2; exists x; reflexivity).
  destruct ci; [|destruct Hctx as [Hctx|Hctx]; [discriminate | subst cio]];
    destruct ru, di; unfold_m; cbn [negb ctx_init_ok]; unfold_m;
    cbn [playback_devices device_init_ok device_start_ok now];
    rewrite Hinit; cbn [negb];
    destruct (0 <? dur); try destruct mo; cbn [negb];
    (repeat split; rewrite <- ?app_assoc; cbn [app]).
  all: match goal with
       | |- exists pre, ?l ++ [?a; ?e1; ?e2] = _ => apply (Hpre l [a] e1 e2)
       | |- exists pre, ?l ++ [?a; ?b; ?e1; ?e2] = _ =>
           apply (Hpre l [a; b] e1 e2)
       | |- exists pre, ?l ++ [?a; ?b; ?c; ?e1; ?e2] = _ =>
           apply (Hpre l [a; b; c] e1 e2)
       | |- exists pre, ?l ++ [?a; ?b; ?c; ?d; ?e1; ?e2] = _ =>
           apply (Hpre l [a; b; c; d] e1 e2)
       end.
Qed.

(** C8. [POST /audio/select] stores whatever ordinal it is given, without
    consulting the enumeration.  The ordinal is checked when [start_noise]
    creates the device, against the enumeration it has just made: an
    ordinal inside it is the endpoint the device is created on; when the
    ordinal is negative or not below the count (or the enumeration fails)
    the device is configured with the default endpoint, and whenever the
    subsystem can create and start that default device, [start_noise]
    returns [true] with the session running on it. *)
Theorem select_unchecked_start_falls_back :
  forall g env1 env2 idx rate ch amp dur,
    - 2 ^ 31 <= idx < 2 ^ 31 ->
    let g1 := exec (post_audio_select env1 (Some idx)) g in
    g_selectedPlaybackIndex g1 = idx
    /\ ((idx < 0
         \/ playback_devices env2 = None
         \/ exists count, playback_devices env2 = Some count /\ count <= idx) ->
        choose_device (playback_devices env2) (g_selectedPlaybackIndex g1)
          = None
        /\ (g_ctx_inited g1 = true \/ ctx_init_ok env2 = true ->
            device_init_ok env2 (mkDeviceConfig ch rate None) = true ->
            device_start_ok env2 = true ->
            let r := start_noise env2 rate ch amp dur g1 in
            fst r = true
            /\ g_noiseRunning (snd r) = true
            /\ exists pre,
                 ma_log (snd r) =
                   ma_log g1 ++ pre
                     ++ [EvDeviceInit (mkDeviceConfig ch rate None) true;
                         EvDeviceStart true]))
    /\ (forall count,
          playback_devices env2 = Some count ->
          0 <= idx < count -> count < 2 ^ 32 ->
          choose_device (playback_devices env2) (g_selectedPlaybackIndex g1)
            = Some idx
          /\ (g_ctx_inited g1 = true \/ ctx_init_ok env2 = true ->
              device_init_ok env2 (mkDeviceConfig ch rate (Some idx)) = true ->
              device_start_ok env2 = true ->
              let r := start_noise env2 rate ch amp dur g1 in
              fst r = true
              /\ g_noiseRunning (snd r) = true
              /\ exists pre,
                   ma_log (snd r) =
                     ma_log g1 ++ pre
                       ++ [EvDeviceInit (mkDeviceConfig ch rate (Some idx))
                                        true;
                           EvDeviceStart true])).
Proof.
  intros g env1 env2 idx rate ch amp dur Hint g1.
  assert (Hsel : g_selectedPlaybackIndex g1 = idx).
  { subst g1. destruct g as [ci sel di ru st mo hd sa lg].
    unfold_m. cbn [or_default]. split_ifs; reflexivity. }
  pose proof (start_noise_success_log g1 env2 rate ch amp dur) as Hlog.
  cbv zeta in Hlog. rewrite Hsel in Hlog. rewrite Hsel.
  split; [reflexivity|]. split.
  - intro Hout.
    pose proof (choose_device_out_of_range _ idx Hint Hout) as Hnone.
    rewrite Hnone in Hlog. split; [exact Hnone|].
    intros Hctx Hinit Hstart. exact (Hlog Hctx Hinit Hstart).
  - intros count Hdev Hidx Hcount.
    assert (Hsome : choose_device (playback_devices env2) idx = Some idx)
      by (rewrite Hdev; apply choose_device_in_range; assumption).
    rewrite Hsome in Hlog. split; [exact Hsome|].
    intros Hctx Hinit Hstart. exact (Hlog Hctx Hinit Hstart).
Qed.

Lemma select_unchecked_start_falls_back_witness :
  (let g1 := exec (post_audio_select env_ok (Some 7)) initial in
   g_selectedPlaybackIndex g1 = 7
   /\ choose_device (playback_devices env_ok) (g_selectedPlaybackIndex g1)
        = None
   /\ fst (start_noise env_ok 48000 2 c0_2 3000 g1) = true)
  /\ (let g1 := exec (post_audio_select env_ok (Some 1)) initial in
      g_selectedPlaybackIndex g1 = 1
      /\ choose_device (playback_devices env_ok) (g_selectedPlaybackIndex g1)
           = Some 1
      /\ fst (start_noise env_ok 48000 2 c0_2 3000 g1) = true).
Proof.
  split.
  - pose proof (select_unchecked_start_falls_back
                  initial env_ok env_ok 7 48000 2 c0_2 3000) as H.
    destruct H as (Hsel & Hout & _); [cbn; lia|].
    split; [exact Hsel|].
    destruct Hout as [Hnone Hstart].
    { right; right. exists 2. split; [reflexivity | lia]. }
    split; [exact Hnone|].
    destruct Hstart as [Hok _];
      [left; reflexivity | reflexivity | reflexivity | exact Hok].
  - pose proof (select_unchecked_start_falls_back
                  initial env_ok env_ok 1 48000 2 c0_2 3000) as H.
    destruct H as (Hsel & _ & Hin); [cbn; lia|].
    split; [exact Hsel|].
    destruct (Hin 2) as [Hsome Hstart]; [reflexivity | lia | lia |].
    split; [exact Hsome|].
    destruct Hstart as [Hok _];
      [left; reflexivity | reflexivity | reflexivity | exact Hok].
Defined.

(** ** Range checks of the start request *)

(** C9, the part that fails: a channel count of 9 is replaced by 2, not by
    the upper bound 8, and a channel count of 0 by 2, not by the lower
    bound 1. *)
Lemma channels_out_of_range_become_two :
  (let '(_, channels, _, _) := whitenoise_params nine_channels_request in
   channels = 2 /\ channels <> 8)
  /\ (let '(_, channels, _, _) := whitenoise_params no_channels_request in
      channels = 2 /\ channels <> 1).
Proof. split; split; (reflexivity || discriminate). Qed.

Lemma clamp_amp_spec (a : f32) :
  let a1 := if ltb a zero then zero else a in
  let a2 := if ltb one a1 then one else a1 in
  (ltb a zero = true -> a2 = zero)
  /\ (ltb one a = true -> a2 = one)
  /\ (ltb a zero = false -> ltb one a = false -> a2 = a).
Proof.
  cbv zeta. destruct (ltb a zero) eqn:Hlo.
  - replace (ltb one zero) with false by reflexivity.
    repeat split; try discriminate.
    intro Hhi. exfalso.
    destruct a as [s | s | | s m e]; try destruct s; discriminate.
  - destruct (ltb one a) eqn:Hhi; repeat split; intros; congruence.
Qed.

(** C9, amended.  Both front ends forward every request to the device
    after adjusting it, and reject none: a sample rate below 8000 becomes
    8000; an amplitude below 0.0 becomes 0.0 and an amplitude above 1.0
    becomes 1.0; a channel count of 0 or above 8 becomes 2, the default;
    values inside the ranges are kept. *)
Theorem request_fields_adjusted :
  (forall req,
      let rate0 := or_default (jrate req) 48000 in
      let ch0 := or_default (jch req) 2 in
      let amp0 := or_default (jamp req) c0_2 in
      let '(rate, ch, amp, dur) := whitenoise_params req in
      rate = Z.max rate0 8000
      /\ (ch0 = 0 \/ 8 < ch0 -> ch = 2)
      /\ (1 <= ch0 <= 8 -> ch = ch0)
      /\ (ltb amp0 zero = true -> amp = zero)
      /\ (ltb one amp0 = true -> amp = one)
      /\ (ltb amp0 zero = false -> ltb one amp0 = false -> amp = amp0)
      /\ forall env g,
           post_audio_whitenoise env req g =
           (let '(ok, g') := start_noise env rate ch amp dur g in
            ((ok, dur), g')))
  /\ (forall rate0 ch0 amp0 dur0,
         let '(rate, ch, amp, dur) := noise_main_params rate0 ch0 amp0 dur0 in
         rate = Z.max rate0 8000
         /\ (ch0 = 0 \/ 8 < ch0 -> ch = 2)
         /\ (1 <= ch0 <= 8 -> ch = ch0)
         /\ (ltb amp0 zero = true -> amp = zero)
         /\ (ltb one amp0 = true -> amp = one)
         /\ (ltb amp0 zero = false -> ltb one amp0 = false -> amp = amp0)).
Proof.
  assert (Hrate : forall r, (if r <? 8000 then 8000 else r) = Z.max r 8000).
  { intro r. destruct (r <? 8000) eqn:E;
      [apply Z.ltb_lt in E | apply Z.ltb_ge in E]; lia. }
  assert (Hch : forall c,
             let c' := if (c =? 0) || (8 <? c) then 2 else c in
             (c = 0 \/ 8 < c -> c' = 2) /\ (1 <= c <= 8 -> c' = c)).
  { intro c. cbv zeta.
    destruct (Z.eqb_spec c 0), (Z.ltb_spec 8 c); cbn [orb];
      split; intros; lia. }
  split.
  - intro req. cbv zeta. unfold post_audio_whitenoise, whitenoise_params.
    rewrite Hrate.
    destruct (Hch (or_default (jch req) 2)) as [Hc1 Hc2].
    destruct (clamp_amp_spec (or_default (jamp req) c0_2))
      as (Ha1 & Ha2 & Ha3).
    repeat split; try assumption.
  - intros rate0 ch0 amp0 dur0. unfold noise_main_params. rewrite Hrate.
    destruct (Hch ch0) as [Hc1 Hc2].
    destruct (clamp_amp_spec amp0) as (Ha1 & Ha2 & Ha3).
    repeat split; assumption.
Qed.

Lemma request_fields_adjusted_witness :
  (let '(_, ch, _, _) := whitenoise_params nine_channels_request in ch = 2)
  /\ (let '(_, ch, amp, _) :=
        noise_main_params 44100 3 (S754_finite false 8388608 (-22)) 5 in
      ch = 3 /\ amp = one).
Proof.
  split.
  - pose proof (proj1 request_fields_adjusted nine_channels_request) as H.
    cbv zeta in H. destruct (whitenoise_params nine_channels_request)
      as [[[rate ch] amp] dur] eqn:E.
    destruct H as (_ & H & _). apply H. right.
    cbn. lia.
  - pose proof (proj2 request_fields_adjusted 44100 3
                  (S754_finite false 8388608 (-22)) 5) as H.
    destruct (noise_main_params 44100 3 (S754_finite false 8388608 (-22)) 5)
      as [[[rate ch] amp] dur] eqn:E.
    destruct H as (_ & _ & Hch & _ & Hamp & _). split.
    + apply Hch. lia.
    + apply Hamp. reflexivity.
Defined.

(** ** Determinism of the stream *)

Lemma next_channels (st : NoiseState) :
  channels (snd (next st)) = channels st
  /\ amplitude (snd (next st)) = amplitude st.
Proof. unfold next. destruct (frand_signed (seed st)). split; reflexivity. Qed.

Lemma fill_fields (n : nat) (st : NoiseState) :
  channels (snd (fill n st)) = channels st
  /\ amplitude (snd (fill n st)) = amplitude st.
Proof.
  revert st; induction n as [|n IH]; intro st; cbn [fill].
  - split; reflexivity.
  - destruct (next_channels st) as [Hc Ha].
    destruct (next st) as [x st1]. cbn [snd] in Hc, Ha.
    destruct (IH st1) as [Hc1 Ha1].
    destruct (fill n st1) as [xs st2]. cbn [snd] in *.
    split; congruence.
Qed.

Lemma fill_add (n m : nat) (st : NoiseState) :
  fill (n + m) st =
  (fst (fill n st) ++ fst (fill m (snd (fill n st))),
   snd (fill m (snd (fill n st)))).
Proof.
  revert st; induction n as [|n IH]; intro st; cbn [fill Nat.add].
  - cbn. destruct (fill m st); reflexivity.
  - destruct (next st) as [x st1]. rewrite IH.
    destruct (fill n st1) as [xs st2]. cbn [fst snd].
    reflexivity.
Qed.

(** The samples depend on the seed and the amplitude only. *)
Lemma fill_ext (n : nat) (st1 st2 : NoiseState) :
  seed st1 = seed st2 -> amplitude st1 = amplitude st2 ->
  fst (fill n st1) = fst (fill n st2)
  /\ seed (snd (fill n st1)) = seed (snd (fill n st2)).
Proof.
  revert st1 st2; induction n as [|n IH]; intros st1 st2 Hs Ha; cbn [fill].
  - split; [reflexivity | exact Hs].
  - unfold next. rewrite Hs, Ha.
    destruct (frand_signed (seed st2)) as [s' r].
    specialize (IH (mkNoiseState (amplitude st2) (channels st1) s')
                   (mkNoiseState (amplitude st2) (channels st2) s')
                   eq_refl eq_refl).
    destruct (fill n (mkNoiseState (amplitude st2) (channels st1) s')).
    destruct (fill n (mkNoiseState (amplitude st2) (channels st2) s')).
    cbn [fst snd] in *. destruct IH as [-> ->]. split; reflexivity.
Qed.

Lemma total_frames_nonneg (frames : list Z) :
  Forall (Z.le 0) frames -> 0 <= total_frames frames.
Proof.
  induction 1 as [|fc rest Hfc _ IH]; cbn [total_frames fold_right].
  - lia.
  - fold (total_frames rest). lia.
Qed.

(** Successive callbacks write the same samples as one long fill. *)
Lemma callbacks_fill (frames : list Z) (st : NoiseState) :
  0 <= channels st -> Forall (Z.le 0) frames ->
  callbacks frames st =
  fill (Z.to_nat (total_frames frames * channels st)) st.
Proof.
  intros Hch Hfr. revert st Hch.
  induction Hfr as [|fc rest Hfc Hrest IH]; intros st Hch.
  - reflexivity.
  - cbn [callbacks total_frames fold_right]. fold (total_frames rest).
    unfold data_callback.
    pose proof (total_frames_nonneg rest Hrest) as Hnn.
    rewrite Z.mul_add_distr_r, Z2Nat.inj_add by nia.
    rewrite fill_add.
    destruct (fill_fields (Z.to_nat (fc * channels st)) st) as [Hc _].
    destruct (fill (Z.to_nat (fc * channels st)) st) as [out st1].
    cbn [fst snd] in *.
    rewrite IH by lia. rewrite Hc.
    destruct (fill (Z.to_nat (total_frames rest * channels st)) st1).
    reflexivity.
Qed.

(** C6. The samples written by any sequence of callbacks are determined by
    the seed, the amplitude and the number of samples: two generator states
    with the same seed and amplitude produce identical sample lists,
    whatever the channel counts and however the samples are split into
    callbacks.  Every successful [start_noise] leaves the generator with
    seed 1234567 and the requested amplitude, so two sessions started with
    equal amplitude, from any states and with any other parameters, play
    identical streams. *)
Theorem same_seed_same_stream :
  (forall st1 st2 frames1 frames2,
      seed st1 = seed st2 -> amplitude st1 = amplitude st2 ->
      0 <= channels st1 -> 0 <= channels st2 ->
      Forall (Z.le 0) frames1 -> Forall (Z.le 0) frames2 ->
      total_frames frames1 * channels st1 =
        total_frames frames2 * channels st2 ->
      fst (callbacks frames1 st1) = fst (callbacks frames2 st2))
  /\ (forall g1 g2 env1 env2 rate1 rate2 ch1 ch2 amp dur1 dur2,
         fst (start_noise env1 rate1 ch1 amp dur1 g1) = true ->
         fst (start_noise env2 rate2 ch2 amp dur2 g2) = true ->
         let st1 := g_noiseState (exec (start_noise env1 rate1 ch1 amp dur1) g1) in
         let st2 := g_noiseState (exec (start_noise env2 rate2 ch2 amp dur2) g2) in
         seed st1 = 1234567 /\ seed st2 = 1234567
         /\ amplitude st1 = amp /\ amplitude st2 = amp
         /\ forall n, fst (fill n st1) = fst (fill n st2)).
Proof.
  split.
  - intros st1 st2 frames1 frames2 Hs Ha Hc1 Hc2 Hf1 Hf2 Htot.
    rewrite !callbacks_fill by assumption. rewrite Htot.
    apply fill_ext; assumption.
  - intros g1 g2 env1 env2 rate1 rate2 ch1 ch2 amp dur1 dur2 H1 H2 st1 st2.
    destruct (start_noise_success_deadline _ _ _ _ _ _ H1)
      as (_ & _ & _ & _ & E1).
    destruct (start_noise_success_deadline _ _ _ _ _ _ H2)
      as (_ & _ & _ & _ & E2).
    subst st1 st2. rewrite E1, E2. cbn [seed amplitude].
    repeat split. intro n. apply fill_ext; reflexivity.
Qed.

Lemma same_seed_same_stream_witness :
  fst (callbacks [2; 1] (mkNoiseState c0_2 2 1234567)) =
  fst (callbacks [1; 1; 4] (mkNoiseState c0_2 1 1234567))
  /\ (let st1 := g_noiseState playing in
      let st2 := g_noiseState
                   (exec (start_noise env_ok 8000 1 c0_2 0) playing) in
      seed st1 = 1234567 /\ seed st2 = 1234567
      /\ amplitude st1 = c0_2 /\ amplitude st2 = c0_2
      /\ forall n, fst (fill n st1) = fst (fill n st2)).
Proof.
  split.
  - apply (proj1 same_seed_same_stream
             (mkNoiseState c0_2 2 1234567) (mkNoiseState c0_2 1 1234567)
             [2; 1] [1; 1; 4]); try reflexivity; cbn; try lia.
    + repeat constructor; lia.
    + repeat constructor; lia.
  - apply (proj2 same_seed_same_stream initial playing env_ok env_ok
             48000 8000 2 1 c0_2 3000 0); reflexivity.
Defined.

(** ** binary32 arithmetic of the generator

    Facts about the [SpecFloat] operations at precision 24: bit lengths,
    the right shift with its sticky bits, rounding of a value that is
    representable, rounding below a representable bound, and from these
    the exact value of [frand_signed] and the bound on its product with the
    amplitude. *)

(** *** Bit lengths *)

Lemma digits2_pos_log2 (p : positive) :
  Zpos (digits2_pos p) = Z.log2 (Zpos p) + 1.
Proof.
  induction p as [p IH | p IH |]; cbn [digits2_pos].
  - rewrite Pos2Z.inj_succ, IH.
    change (Zpos p~1) with (2 * Zpos p + 1).
    rewrite Z.log2_succ_double by lia. lia.
  - rewrite Pos2Z.inj_succ, IH.
    change (Zpos p~0) with (2 * Zpos p).
    rewrite Z.log2_double by lia. lia.
  - reflexivity.
Qed.

Lemma Zdigits2_log2 (m : Z) : 0 < m -> Zdigits2 m = Z.log2 m + 1.
Proof. destruct m; try lia. intros _. apply digits2_pos_log2. Qed.

Lemma Zdigits2_bounds (m : Z) :
  0 < m -> 2 ^ (Zdigits2 m - 1) <= m < 2 ^ Zdigits2 m.
Proof.
  intro Hm. rewrite Zdigits2_log2 by assumption.
  replace (Z.log2 m + 1 - 1) with (Z.log2 m) by lia.
  pose proof (Z.log2_spec m Hm). 
  rewrite <- Z.add_1_r in H. lia.
Qed.

Lemma Zdigits2_shift (m k : Z) :
  0 < m -> 0 <= k -> Zdigits2 (m * 2 ^ k) = Zdigits2 m + k.
Proof.
  intros Hm Hk.
  assert (0 < m * 2 ^ k) by (apply Z.mul_pos_pos; [lia | apply Z.pow_pos_nonneg; lia]).
  rewrite !Zdigits2_log2 by assumption.
  rewrite Z.log2_mul_pow2 by lia. lia.
Qed.

Lemma Zdigits2_mono (a b : Z) : 0 < a -> a <= b -> Zdigits2 a <= Zdigits2 b.
Proof.
  intros Ha Hab. rewrite !Zdigits2_log2 by lia.
  pose proof (Z.log2_le_mono a b Hab). lia.
Qed.

(** *** Right shifts *)

Lemma iter_pos_nat {A} (f : A -> A) (p : positive) (x : A) :
  iter_pos f p x = Nat.iter (Pos.to_nat p) f x.
Proof.
  revert x; induction p as [p IH | p IH |]; intro x; cbn [iter_pos].
  - rewrite !IH, Pos2Nat.inj_xI.
    replace (S (2 * Pos.to_nat p))%nat with (Pos.to_nat p + (Pos.to_nat p + 1))%nat by lia.
    rewrite !Nat.iter_add. reflexivity.
  - rewrite !IH, Pos2Nat.inj_xO.
    replace (2 * Pos.to_nat p)%nat with (Pos.to_nat p + Pos.to_nat p)%nat by lia.
    rewrite Nat.iter_add. reflexivity.
  - reflexivity.
Qed.

Lemma shr_1_nonneg (m : Z) (r s : bool) :
  0 <= m ->
  shr_1 (Build_shr_record m r s) = Build_shr_record (m / 2) (Z.odd m) (r || s).
Proof.
  intro Hm. destruct m as [|p|p]; [reflexivity | | lia].
  destruct p as [p|p|]; cbn [shr_1].
  - f_equal. change (Zpos p~1) with (2 * Zpos p + 1).
    apply Z.div_unique with 1; lia.
  - f_equal. change (Zpos p~0) with (2 * Zpos p).
    apply Z.div_unique with 0; lia.
  - reflexivity.
Qed.

(** [n] right shifts of an integer with a clean record. *)
Lemma shr_iter (n : nat) (m : Z) :
  0 <= m ->
  let mrs := Nat.iter n shr_1 (Build_shr_record m false false) in
  shr_m mrs = m / 2 ^ Z.of_nat n
  /\ (m mod 2 ^ Z.of_nat n = 0 -> shr_r mrs = false /\ shr_s mrs = false).
Proof.
  intro Hm. induction n as [|n IH]; cbv zeta.
  - cbn. rewrite Z.div_1_r. auto.
  - rewrite Nat.iter_succ. cbv zeta in IH. destruct IH as [IHm IHe].
    destruct (Nat.iter n shr_1 (Build_shr_record m false false)) as [m' r' s'].
    cbn [shr_m shr_r shr_s] in *.
    assert (Hp : 0 < 2 ^ Z.of_nat n) by (apply Z.pow_pos_nonneg; lia).
    assert (Hm' : 0 <= m') by (subst m'; apply Z.div_pos; lia).
    rewrite shr_1_nonneg by assumption. cbn [shr_m shr_r shr_s].
    rewrite Nat2Z.inj_succ, Z.pow_succ_r by lia.
    split.
    + subst m'. rewrite Z.div_div by lia. f_equal. lia.
    + intro Hmod.
      assert (Hdiv : (2 * 2 ^ Z.of_nat n | m)) by (apply Z.mod_divide; lia).
      destruct Hdiv as [q Hq].
      assert (Hmod' : m mod 2 ^ Z.of_nat n = 0).
      { apply Z.mod_divide; [lia|]. exists (q * 2). lia. }
      destruct (IHe Hmod') as [-> ->]. split; [|reflexivity].
      subst m'. replace m with ((q * 2) * 2 ^ Z.of_nat n) by lia.
      rewrite Z.div_mul by lia.
      rewrite Z.mul_comm. rewrite Z.odd_mul. reflexivity.
Qed.

(** *** Rounding *)

Lemma fexp_eq (e : Z) : fexp prec emax e = Z.max (e - 24) (-149).
Proof. reflexivity. Qed.

Lemma fexp_mono (a b : Z) : a <= b -> fexp prec emax a <= fexp prec emax b.
Proof. rewrite !fexp_eq. lia. Qed.

Lemma shr_spec (m e n : Z) :
  0 <= m ->
  let k := Z.max n 0 in
  let '(mrs, e') := shr (Build_shr_record m false false) e n in
  e' = e + k
  /\ shr_m mrs = m / 2 ^ k
  /\ (m mod 2 ^ k = 0 -> shr_r mrs = false /\ shr_s mrs = false).
Proof.
  intro Hm. destruct n as [|p|p]; cbn [shr Z.max Z.compare].
  - cbn. rewrite Z.div_1_r, Z.add_0_r. auto.
  - rewrite iter_pos_nat.
    pose proof (shr_iter (Pos.to_nat p) m Hm) as H. cbv zeta in H.
    rewrite positive_nat_Z in H.
    replace (Z.max (Z.pos p) 0) with (Z.pos p) by lia.
    destruct H as [H1 H2]. auto.
  - replace (Z.max (Z.neg p) 0) with 0 by lia.
    cbn. rewrite Z.div_1_r, Z.add_0_r. auto.
Qed.

Lemma round_nearest_even_bounds (m : Z) (l : location) :
  m <= round_nearest_even m l <= m + 1.
Proof.
  destruct l as [|[| |]]; cbn [round_nearest_even]; try lia.
  destruct (Z.even m); lia.
Qed.

(** Rounding a value that is already representable. *)
Lemma bra_exact (sx : bool) (m' : positive) (e n : Z) :
  0 <= n ->
  fexp prec emax (Zpos (digits2_pos m') + (e + n)) = e + n ->
  e + n <= 104 ->
  binary_round_aux prec emax sx (Zpos m' * 2 ^ n) e loc_Exact
  = S754_finite sx m' (e + n).
Proof.
  intros Hn Hcanon Hmax.
  unfold binary_round_aux, shr_fexp. cbn [shr_record_of_loc].
  rewrite Zdigits2_shift by lia. cbn [Zdigits2].
  replace (Zpos (digits2_pos m') + n + e) with (Zpos (digits2_pos m') + (e + n)) by lia.
  rewrite Hcanon. replace (e + n - e) with n by lia.
  assert (Hp : 0 < 2 ^ n) by (apply Z.pow_pos_nonneg; lia).
  assert (Hnn : 0 <= Zpos m' * 2 ^ n) by nia.
  pose proof (shr_spec (Zpos m' * 2 ^ n) e n Hnn) as H. cbv zeta in H.
  destruct (shr (Build_shr_record (Zpos m' * 2 ^ n) false false) e n) as [mrs e1].
  replace (Z.max n 0) with n in H by lia.
  destruct H as (-> & Hm & Hex).
  rewrite Z.div_mul in Hm by lia.
  assert (Hmod : (Zpos m' * 2 ^ n) mod 2 ^ n = 0) by (apply Z.mod_mul; lia).
  destruct (Hex Hmod) as [Hr Hs].
  destruct mrs as [m1 r1 s1]. cbn [shr_m shr_r shr_s] in *. subst m1 r1 s1.
  cbn [loc_of_shr_record round_nearest_even Zdigits2]. rewrite Hcanon.
  rewrite Z.sub_diag. cbn [shr shr_m].
  replace (e + n <=? emax - prec) with true; [reflexivity|].
  symmetry. apply Z.leb_le. unfold emax, prec. lia.
Qed.

(** Rounding a product that does not exceed a representable bound. *)
Lemma bra_le (sx : bool) (P e : Z) (ma : positive) (ea : Z) :
  0 < P -> e <= ea ->
  P <= Zpos ma * 2 ^ (ea - e) ->
  fexp prec emax (Zpos (digits2_pos ma) + ea) = ea ->
  ea <= 104 ->
  match binary_round_aux prec emax sx P e loc_Exact with
  | S754_zero s => s = sx
  | S754_finite s m3 e3 =>
      s = sx /\ (e3 < ea \/ (e3 = ea /\ Zpos m3 <= Zpos ma))
  | _ => False
  end.
Proof.
  intros HP Hee Hle Hcanon Hmax.
  (* every intermediate exponent stays at or below [ea] *)
  assert (Hexp : forall m x, 0 < m -> x <= ea -> m <= Zpos ma * 2 ^ (ea - x) ->
                 fexp prec emax (Zdigits2 m + x) <= ea).
  { intros m x Hm Hx Hmle. rewrite <- Hcanon. apply fexp_mono.
    pose proof (Zdigits2_mono m _ Hm Hmle) as Hd.
    rewrite Zdigits2_shift in Hd by lia. cbn [Zdigits2] in Hd. lia. }
  unfold binary_round_aux, shr_fexp. cbn [shr_record_of_loc].
  set (n := fexp prec emax (Zdigits2 P + e) - e).
  pose proof (shr_spec P e n ltac:(lia)) as H1. cbv zeta in H1.
  destruct (shr (Build_shr_record P false false) e n) as [mrs1 e1].
  destruct H1 as (He1 & Hm1 & Hex1).
  set (k := Z.max n 0) in *.
  assert (Hk : 0 <= k) by (unfold k; lia).
  assert (He1a : e1 <= ea).
  { pose proof (Hexp P e HP Hee Hle). unfold k, n in *. lia. }
  set (m2 := round_nearest_even (shr_m mrs1) (loc_of_shr_record mrs1)).
  assert (Hpk : 0 < 2 ^ k) by (apply Z.pow_pos_nonneg; lia).
  assert (Hsplit : Zpos ma * 2 ^ (ea - e) = Zpos ma * 2 ^ (ea - e1) * 2 ^ k).
  { rewrite <- Z.mul_assoc, <- Z.pow_add_r by lia. do 2 f_equal. lia. }
  assert (Hm2 : 0 <= m2 <= Zpos ma * 2 ^ (ea - e1)).
  { pose proof (round_nearest_even_bounds (shr_m mrs1) (loc_of_shr_record mrs1)) as Hb.
    fold m2 in Hb.
    assert (H0 : 0 <= shr_m mrs1) by (rewrite Hm1; apply Z.div_pos; lia).
    split; [lia|].
    assert (Hq : shr_m mrs1 <= Zpos ma * 2 ^ (ea - e1)).
    { rewrite Hm1. apply Z.div_le_upper_bound; [lia|]. rewrite Z.mul_comm. lia. }
    destruct (Z.eq_dec (shr_m mrs1) (Zpos ma * 2 ^ (ea - e1))) as [Heq|Hne]; [|lia].
    assert (HPeq : P = Zpos ma * 2 ^ (ea - e1) * 2 ^ k).
    { pose proof (Z.mul_div_le P (2 ^ k) Hpk). rewrite <- Hm1, Heq in H. lia. }
    assert (Hmod : P mod 2 ^ k = 0) by (rewrite HPeq; apply Z.mod_mul; lia).
    destruct (Hex1 Hmod) as [Hr Hs].
    unfold m2. destruct mrs1 as [a r s]. cbn [shr_m shr_r shr_s] in *.
    subst r s. cbn [loc_of_shr_record round_nearest_even]. lia. }
  clearbody m2.
  set (n2 := fexp prec emax (Zdigits2 m2 + e1) - e1).
  pose proof (shr_spec m2 e1 n2 ltac:(lia)) as H2. cbv zeta in H2.
  destruct (shr (Build_shr_record m2 false false) e1 n2) as [mrs2 e3].
  destruct H2 as (He3 & Hm3 & _).
  set (k2 := Z.max n2 0) in *.
  assert (Hk2 : 0 <= k2) by (unfold k2; lia).
  assert (Hpk2 : 0 < 2 ^ k2) by (apply Z.pow_pos_nonneg; lia).
  assert (H3 : 0 <= shr_m mrs2) by (rewrite Hm3; apply Z.div_pos; lia).
  destruct (shr_m mrs2) as [|m3|m3] eqn:Em3; [reflexivity | | lia].
  assert (Hm2pos : 0 < m2).
  { destruct (Z.eq_dec m2 0) as [->|]; [|lia].
    rewrite Z.div_0_l in Hm3 by lia. lia. }
  assert (He3a : e3 <= ea).
  { pose proof (Hexp m2 e1 Hm2pos He1a (proj2 Hm2)). unfold k2, n2 in *. lia. }
  replace (e3 <=? emax - prec) with true
    by (symmetry; apply Z.leb_le; unfold emax, prec; lia).
  split; [reflexivity|].
  destruct (Z.eq_dec e3 ea) as [Heq|Hne]; [right; split; [exact Heq|] | left; lia].
  rewrite Hm3. apply Z.div_le_upper_bound; [lia|].
  replace (ea - e1) with k2 in Hm2 by lia. lia.
Qed.

(** *** Normalisation *)

Lemma shl_align_spec (mx : positive) (ex ex' : Z) :
  ex' <= ex ->
  shl_align mx ex ex' = (Z.to_pos (Zpos mx * 2 ^ (ex - ex')), ex')
  \/ (ex' = ex /\ shl_align mx ex ex' = (mx, ex)).
Proof.
  intro Hle. unfold shl_align.
  destruct (ex' - ex) as [|d|d] eqn:E; try lia.
  - right. split; [lia | reflexivity].
  - left. f_equal.
    change (Pos.iter xO mx d) with (shift_pos d mx).
    apply Pos2Z.inj. rewrite shift_pos_correct.
    replace (ex - ex') with (Zpos d) by lia.
    rewrite Z2Pos.id; [change (Z.pow_pos 2 d) with (2 ^ Zpos d); lia|].
    apply Z.mul_pos_pos; [lia | apply Z.pow_pos_nonneg; lia].
Qed.

Lemma shl_align_fst (mx : positive) (ex ex' : Z) :
  ex' <= ex -> Zpos (fst (shl_align mx ex ex')) = Zpos mx * 2 ^ (ex - ex').
Proof.
  intro Hle. destruct (shl_align_spec mx ex ex' Hle) as [-> | [-> ->]];
    cbn [fst].
  - rewrite Z2Pos.id; [reflexivity|].
    apply Z.mul_pos_pos; [lia | apply Z.pow_pos_nonneg; lia].
  - rewrite Z.sub_diag. lia.
Qed.

Lemma canon_Z (w : positive) :
  Zpos (digits2_pos w) <= 24 ->
  Zpos (canon w) = Zpos w * 2 ^ (24 - Zpos (digits2_pos w)).
Proof.
  intro H. unfold canon. rewrite Z2Pos.id; [reflexivity|].
  apply Z.mul_pos_pos; [lia | apply Z.pow_pos_nonneg; lia].
Qed.

Lemma canon_digits (w : positive) :
  Zpos (digits2_pos w) <= 24 -> Zpos (digits2_pos (canon w)) = 24.
Proof.
  intro H. change (Zpos (digits2_pos (canon w))) with (Zdigits2 (Zpos (canon w))).
  rewrite canon_Z by assumption.
  rewrite Zdigits2_shift by lia. cbn [Zdigits2]. lia.
Qed.

(** Normalising [+-w * 2^k] at exponent [g - k]. *)
Lemma normalize_canon (s : bool) (w : positive) (k g : Z) :
  let dw := Zpos (digits2_pos w) in
  0 <= k -> dw <= 24 -> -149 <= g + dw - 24 <= 104 ->
  binary_normalize prec emax (cond_Zopp s (Zpos w * 2 ^ k)) (g - k) false
  = S754_finite s (canon w) (g + dw - 24).
Proof.
  intros dw Hk Hdw Hg.
  assert (Hp : 0 < 2 ^ k) by (apply Z.pow_pos_nonneg; lia).
  assert (Hq : 0 < Zpos w * 2 ^ k) by nia.
  destruct (Zpos w * 2 ^ k) as [|q|q] eqn:Eq; try lia.
  assert (Hdq : Zpos (digits2_pos q) = dw + k).
  { change (Zpos (digits2_pos q)) with (Zdigits2 (Zpos q)).
    rewrite <- Eq, Zdigits2_shift by lia. reflexivity. }
  assert (Hround : binary_round prec emax s q (g - k)
                   = S754_finite s (canon w) (g + dw - 24)).
  { unfold binary_round. rewrite Hdq, fexp_eq.
    replace (Z.max (dw + k + (g - k) - 24) (-149)) with (g + dw - 24) by lia.
    assert (Hcan : fexp prec emax (Zpos (digits2_pos (canon w)) + (g + dw - 24))
                   = g + dw - 24).
    { rewrite canon_digits, fexp_eq by assumption. lia. }
    destruct (Z.le_gt_cases (g + dw - 24) (g - k)) as [Hle|Hgt].
    - destruct (shl_align_spec q (g - k) (g + dw - 24) Hle) as [-> | [He ->]].
      + rewrite <- Eq.
        replace (Zpos w * 2 ^ k * 2 ^ (g - k - (g + dw - 24)))
          with (Zpos (canon w)).
        2:{ rewrite canon_Z by assumption. fold dw.
            rewrite <- Z.mul_assoc, <- Z.pow_add_r by lia. do 2 f_equal. lia. }
        rewrite Pos2Z.id.
        pose proof (bra_exact s (canon w) (g + dw - 24) 0) as H.
        rewrite Z.add_0_r, Z.pow_0_r, Z.mul_1_r in H. apply H; lia.
      + assert (Hqc : q = canon w).
        { apply Pos2Z.inj. rewrite <- Eq, canon_Z by assumption. fold dw.
          do 2 f_equal. lia. }
        rewrite Hqc, <- He.
        pose proof (bra_exact s (canon w) (g + dw - 24) 0) as H.
        rewrite Z.add_0_r, Z.pow_0_r, Z.mul_1_r in H. apply H; lia.
    - unfold shl_align.
      destruct (g + dw - 24 - (g - k)) as [|d|d] eqn:E; try lia.
      replace (Zpos q) with (Zpos (canon w) * 2 ^ (k - (24 - dw))).
      2:{ rewrite <- Eq, canon_Z by assumption. fold dw.
          rewrite <- Z.mul_assoc, <- Z.pow_add_r by lia. do 2 f_equal. lia. }
      replace (g + dw - 24) with ((g - k) + (k - (24 - dw))) by lia.
      apply bra_exact; try lia.
      replace ((g - k) + (k - (24 - dw))) with (g + dw - 24) by lia.
      exact Hcan. }
  destruct s; cbn [cond_Zopp Z.opp binary_normalize]; exact Hround.
Qed.

(** *** The value of [frand_signed] *)

Lemma digits_small (w : positive) :
  Zpos w < 2 ^ 24 -> Zpos (digits2_pos w) <= 24.
Proof.
  intro H. change (Zpos (digits2_pos w)) with (Zdigits2 (Zpos w)).
  pose proof (Zdigits2_bounds (Zpos w) ltac:(lia)) as [Hlo _].
  destruct (Z.le_gt_cases (Zdigits2 (Zpos w)) 24) as [|Hgt]; [assumption|].
  assert (2 ^ 24 <= 2 ^ (Zdigits2 (Zpos w) - 1)) by (apply Z.pow_le_mono_r; lia).
  lia.
Qed.

Lemma digits_pos (w : positive) : 1 <= Zpos (digits2_pos w).
Proof. lia. Qed.

Lemma div_eucl_eq (a b : Z) : Z.div_eucl a b = (a / b, a mod b).
Proof. unfold Z.div, Z.modulo. destruct (Z.div_eucl a b). reflexivity. Qed.

(** [v = (float)m / (float)0x01000000] is [m * 2^-24]. *)
Lemma div_exact (w : positive) :
  Zpos w < 2 ^ 24 ->
  div (of_Z (Zpos w)) (of_Z 0x01000000)
  = S754_finite false (canon w) (Zpos (digits2_pos w) - 48).
Proof.
  intro Hw. pose proof (digits_small w Hw) as Hd.
  pose proof (digits_pos w) as Hd1.
  set (dw := Zpos (digits2_pos w)) in *.
  unfold of_Z at 1.
  pose proof (normalize_canon false w 0 0) as Hn. cbv zeta in Hn.
  cbn [cond_Zopp] in Hn. rewrite Z.pow_0_r, Z.mul_1_r in Hn.
  change (0 - 0) with 0 in Hn. rewrite Hn by (fold dw; lia). fold dw.
  change (of_Z 0x01000000) with (S754_finite false 8388608 1).
  unfold div, SFdiv, SFdiv_core_binary. cbn [xorb].
  change (Zdigits2 (Zpos (canon w))) with (Zpos (digits2_pos (canon w))).
  rewrite canon_digits by assumption.
  change (Zdigits2 8388608) with 24.
  rewrite fexp_eq.
  replace (Z.min (Z.max (24 + (0 + dw - 24) - (24 + 1) - 24) (-149))
                 (0 + dw - 24 - 1)) with (dw - 49) by lia.
  replace (0 + dw - 24 - 1 - (dw - 49)) with 24 by lia.
  rewrite Z.shiftl_mul_pow2 by lia.
  rewrite div_eucl_eq.
  replace (Zpos (canon w) * 2 ^ 24) with ((Zpos (canon w) * 2) * 8388608) by lia.
  rewrite Z.div_mul, Z.mod_mul by lia.
  change (new_location 8388608 0) with loc_Exact.
  change (Zpos (canon w) * 2) with (Zpos (canon w) * 2 ^ 1).
  rewrite bra_exact.
  - f_equal. lia.
  - lia.
  - rewrite canon_digits, fexp_eq by assumption. lia.
  - lia.
Qed.

Lemma mul_two_exact (M : positive) (E : Z) :
  Zpos (digits2_pos M) = 24 -> -140 <= E <= 100 ->
  mul (S754_finite false M E) two = S754_finite false M (E + 1).
Proof.
  intros HM HE. unfold mul, two, SFmul. cbn [xorb].
  rewrite Pos2Z.inj_mul. change (Zpos 8388608) with (2 ^ 23).
  rewrite bra_exact.
  - f_equal. lia.
  - lia.
  - rewrite HM, fexp_eq. lia.
  - lia.
Qed.

(** The result of [frand_signed] is [(2m - 2^24) * 2^-24], exactly. *)
Lemma unit_of_exact (m : Z) :
  0 <= m < 2 ^ 24 ->
  unit_of m = binary_normalize prec emax (2 * m - 2 ^ 24) (-24) false.
Proof.
  intros [Hlo Hhi]. destruct m as [|w|w]; [reflexivity | | lia].
  pose proof (digits_small w Hhi) as Hd.
  pose proof (digits_pos w) as Hd1.
  unfold unit_of. rewrite div_exact by assumption.
  rewrite mul_two_exact by (rewrite ?canon_digits by assumption; lia).
  set (dw := Zpos (digits2_pos w)) in *.
  unfold sub, one, SFsub. cbn [cond_Zopp].
  replace (Z.min (dw - 48 + 1) (-23)) with (dw - 47) by lia.
  rewrite !shl_align_fst by lia.
  rewrite canon_Z by assumption. fold dw.
  replace (dw - 48 + 1 - (dw - 47)) with 0 by lia.
  replace (-23 - (dw - 47)) with (24 - dw) by lia.
  rewrite Z.pow_0_r, Z.mul_1_r.
  replace (Zpos w * 2 ^ (24 - dw) - 8388608 * 2 ^ (24 - dw))
    with ((Zpos w - 2 ^ 23) * 2 ^ (24 - dw)) by lia.
  replace (2 * Zpos w - 2 ^ 24) with ((Zpos w - 2 ^ 23) * 2 ^ 1) by lia.
  destruct (Zpos w - 2 ^ 23) as [|u|u] eqn:Eu.
  - reflexivity.
  - assert (Hu : Zpos (digits2_pos u) <= 24) by (apply digits_small; lia).
    pose proof (digits_pos u).
    pose proof (normalize_canon false u (24 - dw) (-23)) as H1.
    pose proof (normalize_canon false u 1 (-23)) as H2.
    cbv zeta in H1, H2. cbn [cond_Zopp] in H1, H2.
    change (-23 - 1) with (-24) in H2.
    replace (dw - 47) with (-23 - (24 - dw)) by lia.
    rewrite H1, H2 by lia. reflexivity.
  - assert (Hu : Zpos (digits2_pos u) <= 24) by (apply digits_small; lia).
    pose proof (digits_pos u).
    pose proof (normalize_canon true u (24 - dw) (-23)) as H1.
    pose proof (normalize_canon true u 1 (-23)) as H2.
    cbv zeta in H1, H2. cbn [cond_Zopp] in H1, H2.
    rewrite <- !Z.mul_opp_l in H1, H2. cbn [Z.opp] in H1, H2.
    change (-23 - 1) with (-24) in H2.
    replace (dw - 47) with (-23 - (24 - dw)) by lia.
    rewrite H1, H2 by lia. reflexivity.
Qed.

(** *** Order *)

Lemma fin_le (m3 ma : positive) (e3 ea : Z) :
  e3 < ea \/ (e3 = ea /\ Zpos m3 <= Zpos ma) ->
  SFleb (S754_finite false m3 e3) (S754_finite false ma ea) = true
  /\ SFleb (S754_finite true ma ea) (S754_finite true m3 e3) = true.
Proof.
  intro H. unfold SFleb, SFcompare.
  destruct H as [Hlt | [-> Hle]].
  - rewrite (proj2 (Z.compare_lt_iff e3 ea) Hlt).
    rewrite (proj2 (Z.compare_gt_iff ea e3) Hlt). split; reflexivity.
  - rewrite Z.compare_refl.
    change (Pos.compare_cont Eq m3 ma) with (Pos.compare m3 ma).
    change (Pos.compare_cont Eq ma m3) with (Pos.compare ma m3).
    rewrite (Pos.compare_antisym m3 ma).
    destruct (Pos.compare m3 ma) eqn:E; cbn; try (split; reflexivity).
    apply Pos.compare_gt_iff in E. lia.
Qed.

(** Scaling by a finite non-negative amplitude keeps the magnitude at or
    below the amplitude. *)
Lemma mul_at_most_one (x amp : spec_float) :
  at_most_one x ->
  valid amp = true -> finite amp = true -> leb zero amp = true ->
  leb (opp amp) (mul x amp) = true /\ leb (mul x amp) amp = true.
Proof.
  intros Hx Hv Hf Hnn.
  destruct amp as [sa | sa | | sa ma ea]; try discriminate Hf.
  - destruct x as [sx | sx | | sx M E]; try contradiction;
      destruct sa; try destruct sx; split; reflexivity.
  - destruct sa; [discriminate Hnn|].
    destruct x as [sx | sx | | sx M E]; try contradiction.
    + destruct sx; split; reflexivity.
    + destruct Hx as [HE HM].
      unfold valid, valid_binary, bounded, canonical_mantissa in Hv.
      apply andb_prop in Hv as [Hc Hb].
      apply Z.eqb_eq in Hc. apply Z.leb_le in Hb.
      unfold emax, prec in Hb.
      pose proof (bra_le sx (Zpos M * Zpos ma) (E + ea) ma ea) as H.
      assert (Hp : 0 < 2 ^ (- E)) by (apply Z.pow_pos_nonneg; lia).
      replace (ea - (E + ea)) with (- E) in H by lia.
      specialize (H ltac:(lia) ltac:(lia) ltac:(nia) Hc ltac:(lia)).
      unfold mul, SFmul. rewrite xorb_false_r, Pos2Z.inj_mul.
      destruct (binary_round_aux prec emax sx (Zpos M * Zpos ma) (E + ea) loc_Exact)
        as [s | s | | s m3 e3]; try contradiction.
      * subst s. destruct sx; split; reflexivity.
      * destruct H as [-> Hord]. destruct (fin_le m3 ma e3 ea Hord) as [H1 H2].
        destruct sx; cbn [opp SFopp negb]; split;
          try assumption; reflexivity.
Qed.

(** The shape of [(2m - 2^24) * 2^-24] as a binary32 value. *)
Lemma unit_shape (m : Z) :
  0 <= m < 2 ^ 24 ->
  let x := binary_normalize prec emax (2 * m - 2 ^ 24) (-24) false in
  x = S754_zero false
  \/ exists s u,
       x = S754_finite s (canon u) (Zpos (digits2_pos u) - 47)
       /\ Zpos (digits2_pos u) <= 24
       /\ Zpos u <= 2 ^ 23
       /\ (s = false -> Zpos u < 2 ^ 23).
Proof.
  intros Hm x. subst x.
  replace (2 * m - 2 ^ 24) with ((m - 2 ^ 23) * 2 ^ 1) by lia.
  destruct (m - 2 ^ 23) as [|u|u] eqn:Eu.
  - left. reflexivity.
  - right. exists false, u.
    assert (Hu : Zpos (digits2_pos u) <= 24) by (apply digits_small; lia).
    pose proof (digits_pos u).
    pose proof (normalize_canon false u 1 (-23)) as H2.
    cbv zeta in H2. cbn [cond_Zopp] in H2. change (-23 - 1) with (-24) in H2.
    rewrite H2 by lia. repeat split; try lia. f_equal. lia.
  - right. exists true, u.
    assert (Hu : Zpos (digits2_pos u) <= 24) by (apply digits_small; lia).
    pose proof (digits_pos u).
    pose proof (normalize_canon true u 1 (-23)) as H2.
    cbv zeta in H2. cbn [cond_Zopp] in H2. change (-23 - 1) with (-24) in H2.
    rewrite <- Z.mul_opp_l in H2. cbn [Z.opp] in H2.
    rewrite H2 by lia. repeat split; try lia; try discriminate. f_equal. lia.
Qed.

Lemma unit_at_most_one (m : Z) :
  0 <= m < 2 ^ 24 ->
  at_most_one (binary_normalize prec emax (2 * m - 2 ^ 24) (-24) false).
Proof.
  intro Hm. destruct (unit_shape m Hm) as [-> | (s & u & -> & Hd & Hu & _)].
  - exact I.
  - cbn [at_most_one]. pose proof (digits_pos u). split; [lia|].
    rewrite canon_Z by assumption.
    replace (- (Zpos (digits2_pos u) - 47))
      with (23 + (24 - Zpos (digits2_pos u))) by lia.
    rewrite Z.pow_add_r by lia.
    apply Z.mul_le_mono_nonneg_r; [apply Z.pow_nonneg; lia | lia].
Qed.

(** The value lies in [-1, 1). *)
Lemma unit_range (m : Z) :
  0 <= m < 2 ^ 24 ->
  let x := binary_normalize prec emax (2 * m - 2 ^ 24) (-24) false in
  leb (opp one) x = true /\ ltb x one = true.
Proof.
  intros Hm x. subst x.
  destruct (unit_shape m Hm) as [-> | (s & u & -> & Hd & Hu & Hs)].
  - split; reflexivity.
  - pose proof (digits_pos u). destruct s.
    + split; [|reflexivity].
      apply (fin_le (canon u) 8388608 (Zpos (digits2_pos u) - 47) (-23)).
      destruct (Z.eq_dec (Zpos (digits2_pos u)) 24) as [E|E]; [right | left; lia].
      split; [lia|]. rewrite canon_Z, E by assumption.
      change (2 ^ (24 - 24)) with 1. lia.
    + specialize (Hs eq_refl).
      assert (Zpos (digits2_pos u) <= 23).
      { change (Zpos (digits2_pos u)) with (Zdigits2 (Zpos u)).
        pose proof (Zdigits2_bounds (Zpos u) ltac:(lia)) as [Hlo _].
        destruct (Z.le_gt_cases (Zdigits2 (Zpos u)) 23) as [|Hgt]; [assumption|].
        assert (2 ^ 23 <= 2 ^ (Zdigits2 (Zpos u) - 1))
          by (apply Z.pow_le_mono_r; lia).
        lia. }
      split; [reflexivity|].
      unfold ltb, SFltb, SFcompare, one.
      rewrite (proj2 (Z.compare_lt_iff _ _)) by lia. reflexivity.
Qed.

(** *** Strictly below a representable bound *)

Lemma shr_iter_r (k : nat) (m : Z) :
  0 <= m ->
  shr_r (Nat.iter (S k) shr_1 (Build_shr_record m false false))
  = Z.odd (m / 2 ^ Z.of_nat k).
Proof.
  intro Hm. rewrite Nat.iter_succ.
  destruct (shr_iter k m Hm) as [Hq _].
  destruct (Nat.iter k shr_1 (Build_shr_record m false false)) as [m' r' s'].
  cbn [shr_m] in Hq.
  assert (0 < 2 ^ Z.of_nat k) by (apply Z.pow_pos_nonneg; lia).
  rewrite shr_1_nonneg by (subst m'; apply Z.div_pos; lia).
  cbn [shr_r]. rewrite Hq. reflexivity.
Qed.

Lemma shr_spec_r (m e n : Z) :
  0 <= m -> 0 < n ->
  shr_r (fst (shr (Build_shr_record m false false) e n))
  = Z.odd (m / 2 ^ (n - 1)).
Proof.
  intros Hm Hn. destruct n as [|p|p]; try lia. cbn [shr fst].
  rewrite iter_pos_nat.
  destruct (Pos2Nat.is_succ p) as [k Hk]. rewrite Hk.
  rewrite shr_iter_r by assumption.
  replace (Z.of_nat k) with (Zpos p - 1) by lia. reflexivity.
Qed.

Lemma round_down (q : Z) (s : bool) :
  round_nearest_even q (loc_of_shr_record (Build_shr_record q false s)) = q.
Proof. destruct s; reflexivity. Qed.

(** Rounding a product that stays more than half a unit of the bound's
    last place below a representable bound. *)
Lemma bra_lt (sx : bool) (P e : Z) (ma : positive) (ea : Z) :
  0 < P -> e <= ea ->
  2 * P < (2 * Zpos ma - 1) * 2 ^ (ea - e) ->
  fexp prec emax (Zpos (digits2_pos ma) + ea) = ea ->
  ea <= 104 ->
  match binary_round_aux prec emax sx P e loc_Exact with
  | S754_zero s => s = sx
  | S754_finite s m3 e3 =>
      s = sx /\ (e3 < ea \/ (e3 = ea /\ Zpos m3 < Zpos ma))
  | _ => False
  end.
Proof.
  intros HP Hee Hlt Hcanon Hmax.
  assert (HpD : 0 < 2 ^ (ea - e)) by (apply Z.pow_pos_nonneg; lia).
  assert (Hle : P <= Zpos ma * 2 ^ (ea - e)) by nia.
  assert (Hexp : forall m x, 0 < m -> x <= ea -> m <= Zpos ma * 2 ^ (ea - x) ->
                 fexp prec emax (Zdigits2 m + x) <= ea).
  { intros m x Hm Hx Hmle. rewrite <- Hcanon. apply fexp_mono.
    pose proof (Zdigits2_mono m _ Hm Hmle) as Hd.
    rewrite Zdigits2_shift in Hd by lia. cbn [Zdigits2] in Hd. lia. }
  unfold binary_round_aux, shr_fexp. cbn [shr_record_of_loc].
  set (n := fexp prec emax (Zdigits2 P + e) - e).
  pose proof (shr_spec P e n ltac:(lia)) as H1. cbv zeta in H1.
  pose proof (shr_spec_r P e n ltac:(lia)) as Hr1.
  destruct (shr (Build_shr_record P false false) e n) as [mrs1 e1].
  cbn [fst] in Hr1.
  destruct H1 as (He1 & Hm1 & Hex1).
  set (k := Z.max n 0) in *.
  assert (Hk : 0 <= k) by (unfold k; lia).
  assert (He1a : e1 <= ea).
  { pose proof (Hexp P e HP Hee Hle). unfold k, n in *. lia. }
  set (m2 := round_nearest_even (shr_m mrs1) (loc_of_shr_record mrs1)).
  assert (Hpk : 0 < 2 ^ k) by (apply Z.pow_pos_nonneg; lia).
  assert (Hpj : 0 < 2 ^ (ea - e1)) by (apply Z.pow_pos_nonneg; lia).
  assert (Hsplit : 2 ^ (ea - e) = 2 ^ (ea - e1) * 2 ^ k).
  { rewrite <- Z.pow_add_r by lia. f_equal. lia. }
  set (A := Zpos ma * 2 ^ (ea - e1)).
  assert (H2P : 2 * P < (2 * A - 1) * 2 ^ k).
  { unfold A. rewrite Hsplit in Hlt. nia. }
  assert (Hq0 : 0 <= shr_m mrs1) by (rewrite Hm1; apply Z.div_pos; lia).
  assert (Hqle : shr_m mrs1 * 2 ^ k <= P)
    by (rewrite Hm1, Z.mul_comm; apply Z.mul_div_le; lia).
  assert (Hq : shr_m mrs1 <= A - 1) by nia.
  assert (Hm2 : 0 <= m2 <= A - 1).
  { pose proof (round_nearest_even_bounds (shr_m mrs1) (loc_of_shr_record mrs1))
      as Hb. fold m2 in Hb. split; [lia|].
    destruct (Z.eq_dec (shr_m mrs1) (A - 1)) as [Heq|Hne]; [|lia].
    assert (Hrf : shr_r mrs1 = false).
    { destruct (Z.eq_dec k 0) as [Hk0|Hk0].
      - apply Hex1. rewrite Hk0. apply Z.mod_1_r.
      - assert (Hn : 0 < n) by (unfold k in *; lia).
        rewrite (Hr1 Hn).
        assert (Hkn : k = n) by (unfold k; lia).
        assert (Hp1 : 0 < 2 ^ (n - 1)) by (apply Z.pow_pos_nonneg; lia).
        assert (H2 : 2 ^ k = 2 * 2 ^ (n - 1)).
        { rewrite Hkn. rewrite <- Z.pow_succ_r by lia. f_equal. lia. }
        assert (Hdiv : P / 2 ^ (n - 1) = 2 * shr_m mrs1).
        { symmetry. apply Z.div_unique with (P - 2 * shr_m mrs1 * 2 ^ (n - 1));
            nia. }
        rewrite Hdiv, Z.odd_mul. reflexivity. }
    unfold m2. destruct mrs1 as [a r s]. cbn [shr_m shr_r] in *. subst r.
    rewrite round_down. lia. }
  clearbody m2.
  set (n2 := fexp prec emax (Zdigits2 m2 + e1) - e1).
  pose proof (shr_spec m2 e1 n2 ltac:(lia)) as H2. cbv zeta in H2.
  destruct (shr (Build_shr_record m2 false false) e1 n2) as [mrs2 e3].
  destruct H2 as (He3 & Hm3 & _).
  set (k2 := Z.max n2 0) in *.
  assert (Hk2 : 0 <= k2) by (unfold k2; lia).
  assert (Hpk2 : 0 < 2 ^ k2) by (apply Z.pow_pos_nonneg; lia).
  assert (H3 : 0 <= shr_m mrs2) by (rewrite Hm3; apply Z.div_pos; lia).
  destruct (shr_m mrs2) as [|m3|m3] eqn:Em3; [reflexivity | | lia].
  assert (Hm2pos : 0 < m2).
  { destruct (Z.eq_dec m2 0) as [->|]; [|lia].
    rewrite Z.div_0_l in Hm3 by lia. lia. }
  assert (He3a : e3 <= ea).
  { assert (Hm2le : m2 <= Zpos ma * 2 ^ (ea - e1)) by (fold A; lia).
    pose proof (Hexp m2 e1 Hm2pos He1a Hm2le). unfold k2, n2 in *. lia. }
  replace (e3 <=? emax - prec) with true
    by (symmetry; apply Z.leb_le; unfold emax, prec; lia).
  split; [reflexivity|].
  destruct (Z.eq_dec e3 ea) as [Heq|Hne]; [right; split; [exact Heq|] | left; lia].
  rewrite Hm3. apply Z.div_lt_upper_bound; [lia|].
  unfold A in Hm2. replace (ea - e1) with k2 in Hm2 by lia. lia.
Qed.

Lemma fin_lt (m3 ma : positive) (e3 ea : Z) :
  e3 < ea \/ (e3 = ea /\ Zpos m3 < Zpos ma) ->
  SFltb (S754_finite false m3 e3) (S754_finite false ma ea) = true.
Proof.
  intro H. unfold SFltb, SFcompare.
  destruct H as [Hlt | [-> Hlt]].
  - rewrite (proj2 (Z.compare_lt_iff e3 ea) Hlt). reflexivity.
  - rewrite Z.compare_refl.
    change (Pos.compare_cont Eq m3 ma) with (Pos.compare m3 ma).
    rewrite (proj2 (Pos.compare_lt_iff m3 ma)) by lia. reflexivity.
Qed.

(** Above 2^-127 the product stays strictly below the amplitude. *)
Lemma mul_unit_below (m : Z) (amp : f32) :
  0 <= m < 2 ^ 24 ->
  valid amp = true -> finite amp = true -> ltb half_min amp = true ->
  ltb (mul (binary_normalize prec emax (2 * m - 2 ^ 24) (-24) false) amp) amp
  = true.
Proof.
  intros Hm Hv Hf Hgt.
  destruct amp as [sa | sa | | sa ma ea]; try discriminate.
  destruct sa; [discriminate|].
  unfold valid, valid_binary, bounded, canonical_mantissa in Hv.
  apply andb_prop in Hv as [Hc Hb].
  apply Z.eqb_eq in Hc. apply Z.leb_le in Hb. unfold emax, prec in Hb.
  assert (Hma : 2 ^ 22 < Zpos ma).
  { revert Hgt. unfold ltb, half_min, SFltb, SFcompare.
    change (Pos.compare_cont Eq 4194304 ma) with (Pos.compare 4194304 ma).
    destruct (Z.compare_spec (-149) ea) as [<- | Hlt | Hgt']; try discriminate.
    - destruct (Pos.compare_spec 4194304 ma); try discriminate. lia.
    - intros _. rewrite fexp_eq in Hc.
      pose proof (Zdigits2_bounds (Zpos ma) ltac:(lia)) as [Hlo _].
      cbn [Zdigits2] in Hlo.
      replace (Zpos (digits2_pos ma)) with 24 in Hlo by lia.
      change (2 ^ (24 - 1)) with 8388608 in Hlo. lia. }
  destruct (unit_shape m Hm) as [-> | (s & u & -> & Hd & Hu & Hs)].
  - reflexivity.
  - pose proof (digits_pos u) as Hd1. unfold mul, SFmul.
    rewrite xorb_false_r, Pos2Z.inj_mul.
    set (du := Zpos (digits2_pos u)) in *.
    assert (HJ : 0 < 2 ^ (24 - du)) by (apply Z.pow_pos_nonneg; lia).
    assert (HE : 2 ^ (- (du - 47)) = 2 ^ 23 * 2 ^ (24 - du)).
    { rewrite <- Z.pow_add_r by lia. f_equal. lia. }
    assert (HM : Zpos (canon u) = Zpos u * 2 ^ (24 - du))
      by (apply canon_Z; assumption).
    destruct s.
    + pose proof (bra_le true (Zpos (canon u) * Zpos ma) (du - 47 + ea) ma ea)
        as H.
      replace (ea - (du - 47 + ea)) with (- (du - 47)) in H by lia.
      rewrite HE, HM in H.
      specialize (H ltac:(lia) ltac:(lia) ltac:(nia) Hc ltac:(lia)).
      rewrite HM.
      destruct (binary_round_aux prec emax true _ _ loc_Exact)
        as [s' | s' | | s' m3 e3]; try contradiction.
      * reflexivity.
      * destruct H as [-> _]. reflexivity.
    + specialize (Hs eq_refl).
      pose proof (bra_lt false (Zpos (canon u) * Zpos ma) (du - 47 + ea) ma ea)
        as H.
      replace (ea - (du - 47 + ea)) with (- (du - 47)) in H by lia.
      rewrite HE, HM in H.
      specialize (H ltac:(lia) ltac:(lia) ltac:(nia) Hc ltac:(lia)).
      rewrite HM.
      destruct (binary_round_aux prec emax false _ _ loc_Exact)
        as [s' | s' | | s' m3 e3]; try contradiction.
      * subst s'. reflexivity.
      * destruct H as [-> Hord]. apply fin_lt, Hord.
Qed.

(** ** The sample *)

Lemma lcg_spec (s : Z) : lcg s = (s * 1664525 + 1013904223) mod 2 ^ 32.
Proof. unfold lcg, u32. apply Zplus_mod_idemp_l. Qed.

Lemma low_bits_mod (s : Z) : Z.land s 0x00FFFFFF = s mod 2 ^ 24.
Proof. change 0x00FFFFFF with (Z.ones 24). apply Z.land_ones. lia. Qed.

Lemma frand_signed_unit (s : Z) :
  frand_signed s = (lcg s, unit_of (Z.land (lcg s) 0x00FFFFFF)).
Proof. reflexivity. Qed.

(** [v] of [frand_signed] is [m * 2^-24], in [[0, 1)]. *)
Lemma div_unit_interval (m : Z) :
  0 <= m < 2 ^ 24 ->
  let v := div (of_Z m) (of_Z 0x01000000) in
  v = binary_normalize prec emax m (-24) false
  /\ leb zero v = true /\ ltb v one = true.
Proof.
  intros [Hlo Hhi]. destruct m as [|w|w]; [repeat split | | lia].
  cbv zeta. rewrite div_exact by assumption.
  pose proof (digits_small w Hhi) as Hd. pose proof (digits_pos w).
  pose proof (normalize_canon false w 0 (-24)) as Hn.
  cbv zeta in Hn. cbn [cond_Zopp] in Hn.
  rewrite Z.pow_0_r, Z.mul_1_r in Hn. change (-24 - 0) with (-24) in Hn.
  rewrite Hn by lia.
  split; [f_equal; lia|]. split; [reflexivity|].
  unfold ltb, SFltb, SFcompare, one.
  rewrite (proj2 (Z.compare_lt_iff _ _)) by lia. reflexivity.
Qed.

(** C3, the parts that fail.  From seed 0 the value returned by
    [frand_signed] is not the one computed from the top 24 bits of the new
    seed; with amplitude 0.0 the sample is not below the amplitude; with
    the positive amplitude [tiny] and seed 5 the sample equals the
    amplitude; and with the amplitude [half_min = 2^-127] and seed
    16103200, whose successor has its low 24 bits all set, the product
    [(1 - 2^-23) * 2^-127] lies half way between two denormals and is
    rounded up to the amplitude. *)
Lemma sample_low_bits_closed_interval :
  snd (frand_signed 0) <> unit_of (Z.shiftr (lcg 0) 8)
  /\ ltb (fst (next (mkNoiseState zero 2 0))) zero = false
  /\ valid tiny = true
  /\ fst (next (mkNoiseState tiny 2 5)) = tiny
  /\ ltb (fst (next (mkNoiseState tiny 2 5))) tiny = false
  /\ valid half_min = true
  /\ Z.land (lcg 16103200) 0x00FFFFFF = 0x00FFFFFF
  /\ fst (next (mkNoiseState half_min 2 16103200)) = half_min
  /\ ltb (fst (next (mkNoiseState half_min 2 16103200))) half_min = false.
Proof.
  split; [|repeat split].
  intro H. vm_compute in H. discriminate H.
Qed.

(** C3, amended.  For every generator state, [next] replaces the seed by
    [seed * 1664525 + 1013904223 mod 2^32]; the value of [frand_signed] is
    computed from the low 24 bits [m] of the new seed: [v = m * 2^-24] lies
    in [[0, 1)] and the returned [2v - 1 = (2m - 2^24) * 2^-24] lies in
    [[-1, 1)], both without rounding error; the sample is its binary32
    product with the amplitude and, for every finite non-negative
    amplitude, lies between minus the amplitude and the amplitude, both
    ends included; for every amplitude above [half_min = 2^-127], so for
    every normal binary32 amplitude, the sample is strictly below the
    amplitude: it lies in [[-amplitude, amplitude)]. *)
Theorem next_sample_spec :
  forall st,
    valid (amplitude st) = true ->
    finite (amplitude st) = true ->
    leb zero (amplitude st) = true ->
    let s' := (seed st * 1664525 + 1013904223) mod 2 ^ 32 in
    let m := Z.land s' 0x00FFFFFF in
    let v := div (of_Z m) (of_Z 0x01000000) in
    let u := binary_normalize prec emax (2 * m - 2 ^ 24) (-24) false in
    m = s' mod 2 ^ 24
    /\ v = binary_normalize prec emax m (-24) false
    /\ leb zero v = true /\ ltb v one = true
    /\ frand_signed (seed st) = (s', u)
    /\ leb (opp one) u = true /\ ltb u one = true
    /\ next st = (mul u (amplitude st),
                  mkNoiseState (amplitude st) (channels st) s')
    /\ leb (opp (amplitude st)) (fst (next st)) = true
    /\ leb (fst (next st)) (amplitude st) = true
    /\ (ltb half_min (amplitude st) = true ->
        ltb (fst (next st)) (amplitude st) = true).
Proof.
  intros st Hv Hf Hnn s' m v u.
  assert (Hm : m = s' mod 2 ^ 24) by apply low_bits_mod.
  assert (Hr : 0 <= m < 2 ^ 24)
    by (rewrite Hm; apply Z.mod_pos_bound; lia).
  assert (Hfr : frand_signed (seed st) = (s', u)).
  { rewrite frand_signed_unit, lcg_spec. fold s'. fold m.
    unfold u. rewrite unit_of_exact by assumption. reflexivity. }
  assert (Hnext : next st = (mul u (amplitude st),
                             mkNoiseState (amplitude st) (channels st) s')).
  { unfold next. rewrite Hfr. reflexivity. }
  destruct (div_unit_interval m Hr) as (Hv1 & Hv2 & Hv3).
  destruct (unit_range m Hr) as [Hu1 Hu2].
  destruct (mul_at_most_one u (amplitude st) (unit_at_most_one m Hr) Hv Hf Hnn)
    as [Hb1 Hb2].
  pose proof (mul_unit_below m (amplitude st) Hr Hv Hf) as Hb3.
  rewrite Hnext. cbn [fst].
  repeat split; assumption.
Qed.

Lemma next_sample_spec_witness :
  (let st := mkNoiseState c0_2 2 1234567 in
   let s' := (seed st * 1664525 + 1013904223) mod 2 ^ 32 in
   let m := Z.land s' 0x00FFFFFF in
   let u := binary_normalize prec emax (2 * m - 2 ^ 24) (-24) false in
   frand_signed (seed st) = (s', u)
   /\ leb (opp (amplitude st)) (fst (next st)) = true
   /\ leb (fst (next st)) (amplitude st) = true
   /\ ltb (fst (next st)) (amplitude st) = true)
  /\ (let st := mkNoiseState above_half_min 2 16103200 in
      ltb half_min (amplitude st) = true
      /\ ltb (fst (next st)) (amplitude st) = true).
Proof.
  split.
  - pose proof (next_sample_spec (mkNoiseState c0_2 2 1234567)
                  eq_refl eq_refl eq_refl) as H.
    cbv zeta in H. cbv zeta.
    destruct H as (_ & _ & _ & _ & Hfr & _ & _ & _ & Hlo & Hhi & Hlt).
    exact (conj Hfr (conj Hlo (conj Hhi (Hlt eq_refl)))).
  - pose proof (next_sample_spec (mkNoiseState above_half_min 2 16103200)
                  eq_refl eq_refl eq_refl) as H.
    cbv zeta in H. cbv zeta.
    destruct H as (_ & _ & _ & _ & _ & _ & _ & _ & _ & _ & Hlt).
    exact (conj eq_refl (Hlt eq_refl)).
Defined.

(** ** Further invariants of the session *)

Lemma context_inits_app (l1 l2 : list Event) :
  context_inits (l1 ++ l2) = context_inits l1 + context_inits l2.
Proof.
  induction l1 as [|e l1 IH]; cbn [app context_inits fold_right].
  - reflexivity.
  - fold (context_inits (l1 ++ l2)). fold (context_inits l1).
    rewrite IH. destruct e as [[|]| | | | |]; lia.
Qed.

Lemma Inv2_initial : Inv2 initial.
Proof. constructor; cbn; (reflexivity || discriminate || constructor). Qed.

Lemma Inv2_step (env : Env) (op : Op) (g : Globals) :
  Inv2 g -> Inv2 (step env op g).
Proof.
  intros [Hd Hx Hm Hc Hb]. destruct g as [ci sel di ru st mo hd sa lg].
  cbn [g_ctx_inited g_noiseDeviceInited g_noiseRunning g_hasDeadline
       g_monitorRunning ma_log] in *.
  subst di.
  destruct op; cbn [step]; unfold_m; split_ifs; cbn [snd];
    constructor;
    cbn [g_ctx_inited g_noiseDeviceInited g_noiseRunning g_hasDeadline
         g_monitorRunning ma_log];
    rewrite ?context_inits_app; cbn [context_inits fold_right];
    try reflexivity; try discriminate; try assumption;
    try (intro; apply Hm; assumption);
    try lia;
    try (intros _; apply Forall_app; split;
         [apply Hb; reflexivity | repeat constructor]);
    try (intuition congruence).
Qed.

Lemma Inv2_run (script : list (Env * Op)) (g : Globals) :
  Inv2 g -> Inv2 (run script g).
Proof.
  revert g; induction script as [|[env op] rest IH]; intros g Hg; simpl.
  - exact Hg.
  - apply IH, Inv2_step, Hg.
Qed.

Lemma ctx_inited_step (env : Env) (op : Op) (g : Globals) :
  g_ctx_inited g = true -> g_ctx_inited (step env op g) = true.
Proof.
  destruct g as [ci sel di ru st mo hd sa lg]. cbn [g_ctx_inited].
  intros ->. destruct op; cbn [step]; unfold_m; split_ifs; reflexivity.
Qed.

(** X1. Along every interleaving the audio context is initialised at most
    once: the log holds one successful [ma_context_init] when
    [g_ctx_inited] is set and none otherwise; as long as the flag is clear
    the only calls ever made to the subsystem are failed
    [ma_context_init]s; and once set the flag stays set. *)
Theorem context_initialised_at_most_once :
  forall script,
    let g := run script initial in
    context_inits (ma_log g) = (if g_ctx_inited g then 1 else 0)
    /\ (g_ctx_inited g = false -> Forall failed_context_init (ma_log g))
    /\ (g_ctx_inited g = true ->
        forall more, g_ctx_inited (run more g) = true).
Proof.
  intros script g.
  destruct (Inv2_run script initial Inv2_initial) as [_ _ _ Hc Hb].
  fold g in Hc, Hb. repeat split; try assumption.
  intros Hg more. revert Hg. generalize g. clear.
  induction more as [|[env op] more IH]; intros g Hg; cbn [run].
  - exact Hg.
  - apply IH, ctx_inited_step, Hg.
Qed.

Lemma context_initialised_at_most_once_witness :
  Forall failed_context_init
    (ma_log (run [(env_no_context, OpEnsureContext);
                  (env_no_context, OpStart 48000 2 c0_2 3000);
                  (env_no_context, OpEnsureContext)] initial))
  /\ g_ctx_inited (run [(env_ok, OpStop)]
                       (run [(env_ok, OpEnsureContext)] initial)) = true.
Proof.
  split.
  - apply (proj1 (proj2 (context_initialised_at_most_once
             [(env_no_context, OpEnsureContext);
              (env_no_context, OpStart 48000 2 c0_2 3000);
              (env_no_context, OpEnsureContext)]))).
    reflexivity.
  - apply (proj2 (proj2 (context_initialised_at_most_once
             [(env_ok, OpEnsureContext)]))).
    reflexivity.
Defined.

(** X2. Between critical sections the device is initialised exactly when
    the session is running, and the number of live device handles is 1
    when it runs and 0 when it does not. *)
Theorem device_held_iff_running :
  forall script,
    let g := run script initial in
    g_noiseDeviceInited g = g_noiseRunning g
    /\ live (ma_log g) = (if g_noiseRunning g then 1 else 0).
Proof.
  intros script g.
  destruct (Inv2_run script initial Inv2_initial) as [Hd _ _ _ _].
  destruct (Inv_run script initial Inv_initial) as [_ _ Hl _].
  fold g in Hd, Hl. unfold handles in Hl. rewrite Hd in Hl. auto.
Qed.

(** X3. In every reachable state with a running timed session, a monitor
    iteration before the deadline changes nothing, and a monitor iteration
    at or after the deadline stops and releases the device, clears the
    deadline flag and leaves no live handle. *)
Theorem monitor_stops_at_deadline_not_before :
  forall g env,
    reachable g -> g_noiseRunning g = true -> g_hasDeadline g = true ->
    (now env < g_noiseStopAt g -> step env OpMonitor g = g)
    /\ (g_noiseStopAt g <= now env ->
        let g' := step env OpMonitor g in
        g_noiseRunning g' = false
        /\ g_noiseDeviceInited g' = false
        /\ g_hasDeadline g' = false
        /\ ma_log g' = ma_log g ++ [EvDeviceStop; EvDeviceUninit]
        /\ live (ma_log g') = 0).
Proof.
  intros g env [script <-] Hrun Hdl.
  destruct (Inv2_run script initial Inv2_initial) as [Hd _ Hm _ _].
  destruct (Inv_run script initial Inv_initial) as [_ _ Hl _].
  specialize (Hm Hdl). unfold handles in Hl. revert Hd Hm Hl Hrun Hdl.
  generalize (run script initial). clear script.
  intros [ci sel di ru st mo hd sa lg].
  cbn [g_noiseDeviceInited g_noiseRunning g_hasDeadline g_monitorRunning
       g_noiseStopAt ma_log].
  intros -> -> Hl -> ->. cbn [step g_monitorRunning]. unfold_m. cbn [andb].
  split; intro Ht.
  - apply Z.leb_gt in Ht. rewrite Ht. reflexivity.
  - apply Z.leb_le in Ht. rewrite Ht. cbn [snd ma_log].
    rewrite <- app_assoc. cbn [app]. repeat split.
    rewrite live_app, Hl. reflexivity.
Qed.

Lemma monitor_stops_at_deadline_not_before_witness :
  step (mkEnv true (Some 2) (fun _ => true) true 2999) OpMonitor playing
    = playing
  /\ g_noiseRunning
       (step (mkEnv true (Some 2) (fun _ => true) true 3000) OpMonitor playing)
     = false.
Proof.
  split.
  - apply (proj1 (monitor_stops_at_deadline_not_before playing
                    (mkEnv true (Some 2) (fun _ => true) true 2999)
                    reachable_playing eq_refl eq_refl)).
    cbn. lia.
  - apply (proj2 (monitor_stops_at_deadline_not_before playing
                    (mkEnv true (Some 2) (fun _ => true) true 3000)
                    reachable_playing eq_refl eq_refl)).
    cbn. lia.
Defined.

(** X4. From every reachable state, [start_noise] followed by [stop_noise]
    leaves the session idle whatever the outcome of the start: not running,
    no device, no deadline flag, no live handle. *)
Theorem start_then_stop_is_idle :
  forall g env rate ch amp dur,
    reachable g ->
    let g' := exec stop_noise (exec (start_noise env rate ch amp dur) g) in
    g_noiseRunning g' = false
    /\ g_noiseDeviceInited g' = false
    /\ g_hasDeadline g' = false
    /\ live (ma_log g') = 0.
Proof.
  intros g env rate ch amp dur Hreach g'.
  assert (Hr : reachable g').
  { subst g'. rewrite start_noise_steps.
    change (exec stop_noise ?x) with (run [(env, OpStop)] x).
    apply reachable_run, reachable_run, Hreach. }
  destruct (Inv_reachable g' Hr) as [_ _ Hl _].
  destruct (stop_noise_post (exec (start_noise env rate ch amp dur) g))
    as (H1 & H2 & H3).
  fold g' in H1, H2, H3. unfold handles in Hl. rewrite H2 in Hl.
  auto.
Qed.

Lemma start_then_stop_is_idle_witness :
  let g' := exec stop_noise
              (exec (start_noise env_ok 44100 1 one 0) playing) in
  g_noiseRunning g' = false
  /\ g_noiseDeviceInited g' = false
  /\ g_hasDeadline g' = false
  /\ live (ma_log g') = 0.
Proof.
  exact (start_then_stop_is_idle playing env_ok 44100 1 one 0
           reachable_playing).
Defined.

(** X5. While the audio context cannot be initialised, a request to
    [POST /audio/whitenoise] fails without touching any device: it reports
    failure, and its only effect is one more failed [ma_context_init]. *)
Theorem whitenoise_without_context_fails_cleanly :
  forall g env req,
    g_ctx_inited g = false -> ctx_init_ok env = false ->
    let r := post_audio_whitenoise env req g in
    fst (fst r) = false
    /\ snd r = Set_.log (EvContextInit false) g.
Proof.
  intros g env req Hg Henv.
  destruct g as [ci sel di ru st mo hd sa lg]. cbn [g_ctx_inited] in Hg.
  subst ci. unfold post_audio_whitenoise.
  destruct (whitenoise_params req) as [[[rate ch] amp] dur].
  unfold_m. rewrite Henv. cbn [negb]. split; reflexivity.
Qed.

Lemma whitenoise_without_context_fails_cleanly_witness :
  let r := post_audio_whitenoise env_no_context zero_duration_request
             initial in
  fst (fst r) = false /\ snd r = Set_.log (EvContextInit false) initial.
Proof.
  exact (whitenoise_without_context_fails_cleanly initial env_no_context
           zero_duration_request eq_refl eq_refl).
Defined.

(** X6. When the stored ordinal is inside the enumeration made by
    [start_noise], the device is created on that endpoint; if the subsystem
    refuses to create it, [start_noise] fails at once and does not try the
    default endpoint instead. *)
Theorem selected_endpoint_is_bound :
  forall g env idx count rate ch amp dur,
    playback_devices env = Some count ->
    0 <= idx < count -> count < 2 ^ 32 ->
    g_selectedPlaybackIndex g = idx ->
    g_ctx_inited g = true \/ ctx_init_ok env = true ->
    let cfg := mkDeviceConfig ch rate (Some idx) in
    let r := start_noise env rate ch amp dur g in
    (device_init_ok env cfg = true -> device_start_ok env = true ->
     fst r = true
     /\ exists pre,
          ma_log (snd r) =
            ma_log g ++ pre ++ [EvDeviceInit cfg true; EvDeviceStart true])
    /\ (device_init_ok env cfg = false ->
        fst r = false
        /\ exists pre,
             ma_log (snd r) = ma_log g ++ pre ++ [EvDeviceInit cfg false]).
Proof.
  intros g env idx count rate ch amp dur Hdev Hidx Hcount Hsel Hctx cfg r.
  pose proof (choose_device_in_range count idx Hidx Hcount) as Hch.
  subst r cfg.
  destruct g as [ci sel di ru st mo hd sa lg].
  cbn [g_selectedPlaybackIndex g_ctx_inited ma_log] in *. subst sel.
  destruct env as [cio pd dio dso nw].
  cbn [ctx_init_ok playback_devices device_init_ok device_start_ok] in *.
  subst pd.
  assert (Hpre : forall (l x y : list Event),
             exists pre, l ++ x ++ y = l ++ pre ++ y)
    by (intros l x y; exists x; reflexivity).
  split.
  - intros Hinit ->.
    destruct ci; [|destruct Hctx as [Hctx|Hctx]; [discriminate | subst cio]];
      destruct ru, di; unfold_m; cbn [negb ctx_init_ok]; unfold_m;
      cbn [playback_devices device_init_ok device_start_ok now];
      rewrite Hch, Hinit; cbn [negb];
      destruct (0 <? dur); try destruct mo; cbn [negb];
      (split; [reflexivity|]); rewrite <- ?app_assoc; cbn [app].
    all: match goal with
         | |- exists pre, ?l ++ [?a; ?e1; ?e2] = _ =>
             apply (Hpre l [a] [e1; e2])
         | |- exists pre, ?l ++ [?a; ?b; ?e1; ?e2] = _ =>
             apply (Hpre l [a; b] [e1; e2])
         | |- exists pre, ?l ++ [?a; ?b; ?c; ?e1; ?e2] = _ =>
             apply (Hpre l [a; b; c] [e1; e2])
         | |- exists pre, ?l ++ [?a; ?b; ?c; ?d; ?e1; ?e2] = _ =>
             apply (Hpre l [a; b; c; d] [e1; e2])
         end.
  - intros Hinit.
    destruct ci; [|destruct Hctx as [Hctx|Hctx]; [discriminate | subst cio]];
      destruct ru, di; unfold_m; cbn [negb ctx_init_ok]; unfold_m;
      cbn [playback_devices device_init_ok device_start_ok now];
      rewrite Hch, Hinit; cbn [negb];
      (split; [reflexivity|]); rewrite <- ?app_assoc; cbn [app].
    all: match goal with
         | |- exists pre, ?l ++ [?a; ?e1] = _ => apply (Hpre l [a] [e1])
         | |- exists pre, ?l ++ [?a; ?b; ?e1] = _ =>
             apply (Hpre l [a; b] [e1])
         | |- exists pre, ?l ++ [?a; ?b; ?c; ?e1] = _ =>
             apply (Hpre l [a; b; c] [e1])
         | |- exists pre, ?l ++ [?a; ?b; ?c; ?d; ?e1] = _ =>
             apply (Hpre l [a; b; c; d] [e1])
         end.
Qed.

Lemma selected_endpoint_is_bound_witness :
  (let g := exec (post_audio_select env_ok (Some 1)) initial in
   fst (start_noise env_ok 48000 2 c0_2 3000 g) = true)
  /\ (let g := exec (post_audio_select env_ok (Some 1)) initial in
      fst (start_noise env_default_only 48000 2 c0_2 3000 g) = false).
Proof.
  split.
  - refine (proj1 (proj1 (selected_endpoint_is_bound
              (exec (post_audio_select env_ok (Some 1)) initial)
              env_ok 1 2 48000 2 c0_2 3000 eq_refl _ _ eq_refl _)
              eq_refl eq_refl)); [lia | reflexivity | left; reflexivity].
  - refine (proj1 (proj2 (selected_endpoint_is_bound
              (exec (post_audio_select env_ok (Some 1)) initial)
              env_default_only 1 2 48000 2 c0_2 3000 eq_refl _ _ eq_refl _)
              eq_refl)); [lia | reflexivity | left; reflexivity].
Defined.

(** X7. [POST /audio/select] never touches the session: it stores the
    parsed ordinal (or -1 when the text does not parse) and, whatever the
    subsystem answers while the list is rendered, leaves the running flag,
    the device flag, the generator, the deadline and the number of live
    handles as they were. *)
Theorem select_leaves_session_alone :
  forall g env index,
    let g' := exec (post_audio_select env index) g in
    g_selectedPlaybackIndex g' = or_default index (-1)
    /\ g_noiseRunning g' = g_noiseRunning g
    /\ g_noiseDeviceInited g' = g_noiseDeviceInited g
    /\ g_noiseState g' = g_noiseState g
    /\ g_hasDeadline g' = g_hasDeadline g
    /\ g_noiseStopAt g' = g_noiseStopAt g
    /\ live (ma_log g') = live (ma_log g).
Proof.
  intros g env index. destruct g as [ci sel di ru st mo hd sa lg].
  unfold_m. split_ifs; repeat split;
    rewrite ?live_app; cbn [live delta]; lia.
Qed.

(** ** The callback *)

Lemma next_sample (st : NoiseState) :
  let m := lcg (seed st) mod 2 ^ 24 in
  next st =
  (mul (binary_normalize prec emax (2 * m - 2 ^ 24) (-24) false)
       (amplitude st),
   mkNoiseState (amplitude st) (channels st) (lcg (seed st)))
  /\ 0 <= m < 2 ^ 24.
Proof.
  cbv zeta. unfold next. rewrite frand_signed_unit, low_bits_mod.
  assert (Hm : 0 <= lcg (seed st) mod 2 ^ 24 < 2 ^ 24)
    by (apply Z.mod_pos_bound; lia).
  rewrite unit_of_exact by exact Hm. split; [reflexivity | exact Hm].
Qed.

Lemma fill_length (n : nat) (st : NoiseState) :
  length (fst (fill n st)) = n
  /\ seed (snd (fill n st)) = Nat.iter n lcg (seed st).
Proof.
  revert st; induction n as [|n IH]; intro st; cbn [fill].
  - split; reflexivity.
  - destruct (next_sample st) as [Hn _]. rewrite Hn.
    specialize (IH (mkNoiseState (amplitude st) (channels st) (lcg (seed st)))).
    destruct (fill n _) as [xs st2]. cbn [fst snd length seed] in *.
    destruct IH as [-> ->]. split; [reflexivity|].
    rewrite Nat.iter_succ_r. reflexivity.
Qed.

(** X8. [data_callback] writes exactly [frameCount * channels] samples,
    advances the seed by that many steps of the generator and changes
    neither the amplitude nor the channel count; with a channel count of 0
    it writes nothing and leaves the state alone. *)
Theorem data_callback_fills_buffer :
  forall frameCount st,
    let r := data_callback frameCount st in
    let n := Z.to_nat (frameCount * channels st) in
    length (fst r) = n
    /\ seed (snd r) = Nat.iter n lcg (seed st)
    /\ amplitude (snd r) = amplitude st
    /\ channels (snd r) = channels st
    /\ (channels st = 0 -> r = ([], st)).
Proof.
  intros frameCount st. cbv zeta. unfold data_callback.
  destruct (fill_length (Z.to_nat (frameCount * channels st)) st) as [Hl Hs].
  destruct (fill_fields (Z.to_nat (frameCount * channels st)) st) as [Hc Ha].
  repeat split; try assumption.
  intros ->. rewrite Z.mul_0_r. reflexivity.
Qed.

Lemma data_callback_fills_buffer_witness :
  data_callback 512 (g_noiseState initial) = ([], g_noiseState initial).
Proof.
  apply (proj2 (proj2 (proj2 (proj2
           (data_callback_fills_buffer 512 (g_noiseState initial)))))).
  reflexivity.
Defined.

(** Samples of a state whose amplitude satisfies [P] all satisfy [Q], when
    one step does. *)
Lemma fill_Forall (P : f32 -> Prop) (Q : f32 -> f32 -> Prop) :
  (forall st, P (amplitude st) -> Q (amplitude st) (fst (next st))) ->
  forall n st, P (amplitude st) ->
    Forall (Q (amplitude st)) (fst (fill n st)).
Proof.
  intros Hstep n. induction n as [|n IH]; intros st HP; cbn [fill].
  - constructor.
  - pose proof (Hstep st HP) as Hq. destruct (next_channels st) as [_ Ha].
    destruct (next st) as [x st1]. cbn [fst snd] in *.
    specialize (IH st1). rewrite Ha in IH. specialize (IH HP).
    destruct (fill n st1) as [xs st2]. cbn [fst] in *.
    constructor; assumption.
Qed.

Lemma callbacks_Forall (P : f32 -> Prop) (Q : f32 -> f32 -> Prop) :
  (forall st, P (amplitude st) -> Q (amplitude st) (fst (next st))) ->
  forall frames st, P (amplitude st) ->
    Forall (Q (amplitude st)) (fst (callbacks frames st)).
Proof.
  intros Hstep frames. induction frames as [|fc rest IH]; intros st HP;
    cbn [callbacks].
  - constructor.
  - unfold data_callback.
    pose proof (fill_Forall P Q Hstep (Z.to_nat (fc * channels st)) st HP) as H1.
    destruct (fill_fields (Z.to_nat (fc * channels st)) st) as [_ Ha].
    destruct (fill (Z.to_nat (fc * channels st)) st) as [out st1].
    cbn [fst snd] in *.
    specialize (IH st1). rewrite Ha in IH. specialize (IH HP).
    destruct (callbacks rest st1) as [outs st2]. cbn [fst] in *.
    apply Forall_app. split; assumption.
Qed.

Lemma next_between (st : NoiseState) :
  usable (amplitude st) -> between (amplitude st) (fst (next st)).
Proof.
  intros (Hv & Hf & Hnn). destruct (next_sample st) as [-> Hm]. cbn [fst].
  apply mul_at_most_one; try assumption.
  apply unit_at_most_one, Hm.
Qed.

(** X9. For every finite non-negative amplitude, every sample written by
    any sequence of callbacks lies between minus the amplitude and the
    amplitude. *)
Theorem callbacks_within_amplitude :
  forall frames st,
    valid (amplitude st) = true ->
    finite (amplitude st) = true ->
    leb zero (amplitude st) = true ->
    Forall (fun x => leb (opp (amplitude st)) x = true
                     /\ leb x (amplitude st) = true)
           (fst (callbacks frames st)).
Proof.
  intros frames st Hv Hf Hnn.
  apply (callbacks_Forall usable between next_between frames st).
  repeat split; assumption.
Qed.

Lemma callbacks_within_amplitude_witness :
  Forall (fun x => leb (opp c0_2) x = true /\ leb x c0_2 = true)
         (fst (callbacks [256; 256] (mkNoiseState c0_2 2 1234567))).
Proof.
  exact (callbacks_within_amplitude [256; 256] (mkNoiseState c0_2 2 1234567)
           eq_refl eq_refl eq_refl).
Defined.

Lemma unit_finite (m : Z) :
  0 <= m < 2 ^ 24 ->
  finite (binary_normalize prec emax (2 * m - 2 ^ 24) (-24) false) = true.
Proof.
  intro Hm. destruct (unit_shape m Hm) as [-> | (s & u & -> & _)]; reflexivity.
Qed.

Lemma next_silent (st : NoiseState) :
  is_zero (amplitude st) -> is_zero (fst (next st)).
Proof.
  intros [sa Ha]. destruct (next_sample st) as [-> Hm]. cbn [fst].
  rewrite Ha. pose proof (unit_finite _ Hm) as Hf.
  destruct (binary_normalize prec emax _ (-24) false) as [s | s | | s M E];
    try discriminate Hf; eexists; reflexivity.
Qed.

(** X10. With amplitude 0.0 (of either sign) every sample written by any
    sequence of callbacks is a zero: never a NaN and never a denormal. *)
Theorem zero_amplitude_is_silent :
  forall frames st,
    (exists s, amplitude st = S754_zero s) ->
    Forall (fun x => exists s, x = S754_zero s) (fst (callbacks frames st)).
Proof.
  intros frames st Ha.
  exact (callbacks_Forall is_zero (fun _ => is_zero)
           next_silent frames st Ha).
Qed.

Lemma zero_amplitude_is_silent_witness :
  Forall (fun x => exists s, x = S754_zero s)
         (fst (callbacks [128] (mkNoiseState zero 2 1234567))).
Proof.
  apply (zero_amplitude_is_silent [128] (mkNoiseState zero 2 1234567)).
  exists false. reflexivity.
Defined.

Lemma next_nan (st : NoiseState) :
  amplitude st = S754_nan -> fst (next st) = S754_nan.
Proof.
  intro Ha. destruct (next_sample st) as [-> _]. cbn [fst]. rewrite Ha.
  destruct (binary_normalize prec emax _ (-24) false); reflexivity.
Qed.

(** X11. A NaN amplitude, which [atof] returns for the text [nan], passes
    both range checks of [noise.c] unchanged, and then every sample written
    by the callback is NaN. *)
Theorem nan_amplitude_is_not_clamped :
  (forall rate ch dur,
      let '(_, _, amp, _) := noise_main_params rate ch S754_nan dur in
      amp = S754_nan)
  /\ (forall frames st, amplitude st = S754_nan ->
        Forall (fun x => x = S754_nan) (fst (callbacks frames st))).
Proof.
  split.
  - reflexivity.
  - intros frames st Ha.
    exact (callbacks_Forall (fun a => a = S754_nan) (fun _ x => x = S754_nan)
             next_nan frames st Ha).
Qed.

Lemma nan_amplitude_is_not_clamped_witness :
  Forall (fun x => x = S754_nan)
         (fst (callbacks [4] (mkNoiseState S754_nan 2 7))).
Proof.
  apply (proj2 nan_amplitude_is_not_clamped [4] (mkNoiseState S754_nan 2 7)).
  reflexivity.
Defined.

(** ** The low bits of the seed *)

Lemma aff_mod (p : Z * Z) (x : Z) : aff p (x mod 2 ^ 24) = aff p x.
Proof.
  unfold aff. rewrite <- Z.add_mod_idemp_l, Z.mul_mod_idemp_r by lia.
  rewrite Z.add_mod_idemp_l by lia. reflexivity.
Qed.

Lemma aff_dbl (p : Z * Z) (x : Z) : aff p (aff p x) = aff (dbl p) x.
Proof.
  destruct p as [A C].
  transitivity ((A * (A * x + C) + C) mod 2 ^ 24).
  - change (aff (A, C) x) with ((A * x + C) mod 2 ^ 24).
    apply (aff_mod (A, C)).
  - unfold aff, dbl. cbn [fst snd].
    rewrite Z.add_mod_idemp_r by lia.
    rewrite <- (Z.add_mod_idemp_l (A * A mod 2 ^ 24 * x)) by lia.
    rewrite Z.mul_mod_idemp_l by lia.
    rewrite Z.add_mod_idemp_l by lia.
    f_equal. ring.
Qed.

Lemma aff_iter_pow2 (k : nat) :
  forall p x, Nat.iter (2 ^ k) (aff p) x = aff (Nat.iter k dbl p) x.
Proof.
  induction k as [|k IH]; intros p x.
  - reflexivity.
  - rewrite Nat.pow_succ_r'.
    replace (2 * 2 ^ k)%nat with (2 ^ k + 2 ^ k)%nat by lia.
    rewrite Nat.iter_add, !IH, aff_dbl. reflexivity.
Qed.

Lemma lcg_low (s : Z) :
  lcg s mod 2 ^ 24 = aff (1664525, 1013904223) (s mod 2 ^ 24).
Proof.
  rewrite aff_mod, lcg_spec. unfold aff. cbn [fst snd].
  set (x := s * 1664525 + 1013904223).
  replace (1664525 * s + 1013904223) with x by (unfold x; ring).
  change (2 ^ 32) with (2 ^ 24 * 2 ^ 8).
  rewrite Z.rem_mul_r by lia.
  rewrite (Z.mul_comm (2 ^ 24)), Z.mod_add by lia.
  apply Z.mod_mod. lia.
Qed.

Lemma lcg_iter_low (n : nat) (s : Z) :
  Nat.iter n lcg s mod 2 ^ 24
  = Nat.iter n (aff (1664525, 1013904223)) (s mod 2 ^ 24).
Proof.
  induction n as [|n IH]; [reflexivity|].
  rewrite !Nat.iter_succ, lcg_low, IH. reflexivity.
Qed.

(** Samples depend on the seed through its low 24 bits only. *)
Lemma fill_low_bits (n : nat) (st1 st2 : NoiseState) :
  amplitude st1 = amplitude st2 ->
  seed st1 mod 2 ^ 24 = seed st2 mod 2 ^ 24 ->
  fst (fill n st1) = fst (fill n st2).
Proof.
  revert st1 st2; induction n as [|n IH]; intros st1 st2 Ha Hs; cbn [fill].
  - reflexivity.
  - destruct (next_sample st1) as [-> _]. destruct (next_sample st2) as [-> _].
    assert (Hl : lcg (seed st1) mod 2 ^ 24 = lcg (seed st2) mod 2 ^ 24)
      by (rewrite !lcg_low, Hs; reflexivity).
    specialize (IH (mkNoiseState (amplitude st1) (channels st1) (lcg (seed st1)))
                   (mkNoiseState (amplitude st2) (channels st2) (lcg (seed st2)))
                   Ha Hl).
    destruct (fill n (mkNoiseState (amplitude st1) _ _)) as [xs1 r1].
    destruct (fill n (mkNoiseState (amplitude st2) _ _)) as [xs2 r2].
    cbn [fst] in *. rewrite Hl, Ha, IH. reflexivity.
Qed.

(** X12. The top 8 bits of the seed never reach the output: two generator
    states with the same amplitude whose seeds agree on the low 24 bits
    produce identical samples, whatever the channel counts and the split
    into callbacks. *)
Theorem stream_ignores_high_seed_bits :
  forall st1 st2 frames1 frames2,
    amplitude st1 = amplitude st2 ->
    seed st1 mod 2 ^ 24 = seed st2 mod 2 ^ 24 ->
    0 <= channels st1 -> 0 <= channels st2 ->
    Forall (Z.le 0) frames1 -> Forall (Z.le 0) frames2 ->
    total_frames frames1 * channels st1 = total_frames frames2 * channels st2 ->
    fst (callbacks frames1 st1) = fst (callbacks frames2 st2).
Proof.
  intros st1 st2 frames1 frames2 Ha Hs Hc1 Hc2 Hf1 Hf2 Htot.
  rewrite !callbacks_fill by assumption. rewrite Htot.
  apply fill_low_bits; assumption.
Qed.

Lemma stream_ignores_high_seed_bits_witness :
  fst (callbacks [2] (mkNoiseState c0_2 2 1234567))
  = fst (callbacks [4] (mkNoiseState c0_2 1 (1234567 + 5 * 2 ^ 24))).
Proof.
  apply (stream_ignores_high_seed_bits
           (mkNoiseState c0_2 2 1234567)
           (mkNoiseState c0_2 1 (1234567 + 5 * 2 ^ 24)) [2] [4]);
    try reflexivity; cbn [channels]; try lia;
    repeat constructor; lia.
Defined.

(** X13. The sample stream repeats after 2^24 samples: the samples written
    after the first 16777216 are the samples written from the start. *)
Theorem stream_repeats_after_2_24 :
  forall n st,
    fst (fill n (snd (fill (2 ^ 24) st))) = fst (fill n st).
Proof.
  intros n st. apply fill_low_bits.
  - apply fill_fields.
  - destruct (fill_length (2 ^ 24) st) as [_ ->].
    rewrite lcg_iter_low, aff_iter_pow2.
    replace (Nat.iter 24 dbl (1664525, 1013904223)) with (1, 0)
      by (vm_compute; reflexivity).
    unfold aff. cbn [fst snd].
    rewrite Z.mul_1_l, Z.add_0_r, Z.mod_mod by lia. reflexivity.
Qed.

(** ** No clipping *)

Lemma clamp_amp_unit (a : f32) :
  valid a = true -> a <> S754_nan -> unit_amp (clamp_amp a).
Proof.
  intros Hv Hn. unfold clamp_amp, unit_amp, usable.
  destruct (ltb a zero) eqn:Hlo.
  - repeat split.
  - destruct (ltb one a) eqn:Hhi; [repeat split|].
    destruct a as [s | s | | s m e]; try congruence.
    + destruct s; repeat split.
    + destruct s; discriminate.
    + destruct s; [discriminate Hlo|].
      repeat split; try assumption.
      revert Hhi. unfold ltb, leb, SFltb, SFleb, SFcompare, one.
      rewrite (Z.compare_antisym e (-23)).
      change (Pos.compare_cont Eq 8388608 m) with (Pos.compare 8388608 m).
      change (Pos.compare_cont Eq m 8388608) with (Pos.compare m 8388608).
      rewrite (Pos.compare_antisym m 8388608).
      destruct (e ?= -23); cbn [CompOpp]; try discriminate; try reflexivity.
      destruct (m ?= 8388608)%positive; cbn [CompOpp];
        try discriminate; reflexivity.
Qed.

Lemma mul_le_one (x amp : f32) :
  at_most_one x -> unit_amp amp -> between one (mul x amp).
Proof.
  intros Hx [(Hv & Hf & Hnn) Hle]. unfold between.
  destruct amp as [sa | sa | | sa ma ea]; try discriminate Hf.
  - destruct x as [sx | sx | | sx M E]; try contradiction;
      destruct sa; try destruct sx; split; reflexivity.
  - destruct sa; [discriminate Hnn|].
    destruct x as [sx | sx | | sx M E]; try contradiction.
    + destruct sx; split; reflexivity.
    + destruct Hx as [HE HM].
      unfold valid, valid_binary, bounded, canonical_mantissa in Hv.
      apply andb_prop in Hv as [Hc _]. apply Z.eqb_eq in Hc.
      rewrite fexp_eq in Hc.
      pose proof (Zdigits2_bounds (Zpos ma) ltac:(lia)) as [_ Hhi].
      cbn [Zdigits2] in Hhi.
      assert (Hshape : ea <= -23 /\ Zpos ma <= 2 ^ (- ea)).
      { revert Hle. unfold leb, SFleb, SFcompare, one.
        change (Pos.compare_cont Eq ma 8388608) with (Pos.compare ma 8388608).
        destruct (Z.compare_spec ea (-23)) as [-> | Hlt | Hgt];
          try discriminate.
        - destruct (Pos.compare_spec ma 8388608) as [-> | Hl | Hg];
            try discriminate; intros _; split; lia.
        - intros _. split; [lia|].
          assert (2 ^ Zpos (digits2_pos ma) <= 2 ^ 24)
            by (apply Z.pow_le_mono_r; lia).
          assert (2 ^ 24 <= 2 ^ (- ea)) by (apply Z.pow_le_mono_r; lia).
          lia. }
      destruct Hshape as [Hea Hma].
      pose proof (bra_le sx (Zpos M * Zpos ma) (E + ea) 8388608 (-23)) as H.
      assert (Hp1 : 0 < 2 ^ (- E)) by (apply Z.pow_pos_nonneg; lia).
      assert (Hp2 : 0 < 2 ^ (- ea)) by (apply Z.pow_pos_nonneg; lia).
      assert (Hpow : 2 ^ (- E) * 2 ^ (- ea)
                     = 8388608 * 2 ^ (-23 - (E + ea))).
      { change 8388608 with (2 ^ 23).
        rewrite <- !Z.pow_add_r by lia. f_equal. lia. }
      specialize (H ltac:(lia) ltac:(lia) ltac:(nia) eq_refl ltac:(lia)).
      unfold mul, SFmul. rewrite xorb_false_r, Pos2Z.inj_mul.
      destruct (binary_round_aux prec emax sx (Zpos M * Zpos ma) (E + ea)
                  loc_Exact) as [s | s | | s m3 e3]; try contradiction.
      * subst s. destruct sx; split; reflexivity.
      * destruct H as [-> Hord].
        destruct (fin_le m3 8388608 e3 (-23) Hord) as [H1 H2].
        destruct sx; split; try assumption; reflexivity.
Qed.

Lemma next_unit (st : NoiseState) :
  unit_amp (amplitude st) -> between one (fst (next st)).
Proof.
  intros Hu. destruct (next_sample st) as [-> Hm]. cbn [fst].
  apply mul_le_one; [apply unit_at_most_one, Hm | exact Hu].
Qed.

(** X14. No sample played by the web server clips: after a successful
    [POST /audio/whitenoise] whose amplitude is absent or any binary32
    value other than NaN, every sample written by any sequence of
    callbacks lies in [[-1, 1]]. *)
Theorem whitenoise_samples_never_clip :
  forall g env req frames,
    let amp0 := or_default (jamp req) c0_2 in
    valid amp0 = true -> amp0 <> S754_nan ->
    fst (fst (post_audio_whitenoise env req g)) = true ->
    let st := g_noiseState (exec (post_audio_whitenoise env req) g) in
    Forall (fun x => leb (opp one) x = true /\ leb x one = true)
           (fst (callbacks frames st)).
Proof.
  intros g env req frames amp0 Hv Hn Hok st.
  assert (Ha : unit_amp (amplitude st)).
  { subst st. revert Hok. unfold post_audio_whitenoise, whitenoise_params.
    fold amp0. fold (clamp_amp amp0).
    set (rate := if _ <? 8000 then _ else _).
    set (ch := if (_ =? 0) || _ then _ else _).
    set (d := if _ <? 100 then _ else _).
    unfold exec, bind, ret.
    pose proof (start_noise_success_deadline env rate ch (clamp_amp amp0) d g)
      as Hs.
    unfold exec in Hs.
    destruct (start_noise env rate ch (clamp_amp amp0) d g) as [ok g1].
    cbn [fst snd] in *. intros ->.
    destruct (Hs eq_refl) as (_ & _ & _ & _ & ->). cbn [amplitude].
    apply clamp_amp_unit; assumption. }
  exact (callbacks_Forall unit_amp (fun _ => between one)
           next_unit frames st Ha).
Qed.

Lemma whitenoise_samples_never_clip_witness :
  let req := mkNoiseRequest None None None
               (Some (S754_finite false 8388608 (-22))) in
  let st := g_noiseState (exec (post_audio_whitenoise env_ok req) initial) in
  Forall (fun x => leb (opp one) x = true /\ leb x one = true)
         (fst (callbacks [64] st)).
Proof.
  apply (whitenoise_samples_never_clip initial env_ok
           (mkNoiseRequest None None None
              (Some (S754_finite false 8388608 (-22)))) [64]).
  - reflexivity.
  - discriminate.
  - reflexivity.
Defined.

(** ** The command line of [noise.c] *)

Lemma parse_args_app (libc : Libc) (pairs : list (Flag * String.string))
    (l : list String.string) (o : Options) :
  parse_args libc (command_line pairs ++ l) o
  = parse_args libc l (fold_left (set_flag libc) pairs o).
Proof.
  revert o. induction pairs as [|[f v] pairs IH]; intro o.
  - reflexivity.
  - cbn [command_line flat_map fst snd app fold_left].
    fold (command_line pairs). rewrite <- IH.
    destruct f; reflexivity.
Qed.

(** X15. Flags followed by their values are consumed in pairs, from left
    to right, each pair assigning its local, whatever the text of the
    value (a value is never looked at as a flag, even when it reads
    [--help]); so a later occurrence of a flag overrides an earlier one, and
    a command line made of such pairs only is accepted. *)
Theorem parse_args_pairs :
  forall libc pairs rest o,
    parse_args libc (command_line pairs ++ rest) o
    = parse_args libc rest (fold_left (set_flag libc) pairs o)
    /\ parse_args libc (command_line pairs) o
       = ParsedOk (fold_left (set_flag libc) pairs o).
Proof.
  intros libc pairs rest o. split; [apply parse_args_app|].
  rewrite <- (app_nil_r (command_line pairs)), parse_args_app.
  reflexivity.
Qed.

(** X16. After any number of well-formed pairs, a last argument standing
    alone (a flag whose value is missing included) or an argument that is
    not one of the four flags ends the program at once with the usage
    text: status 0 when it is [-h] or [--help], status 1 otherwise; the
    audio device is never opened. *)
Theorem stray_argument_prints_usage :
  forall libc apple env time fuel pairs a rest,
    rest = [] \/ (forall f, a <> flag_text f) ->
    noise_main libc apple env time fuel (command_line pairs ++ a :: rest)
    = Some ((if is_help a then 0 else 1), [OutUsage]).
Proof.
  intros libc apple env time fuel pairs a rest H.
  unfold noise_main. rewrite parse_args_app.
  assert (Hp : forall o, parse_args libc (a :: rest) o
                         = ParsedExit (if is_help a then 0 else 1)).
  { intro o. destruct rest as [|v rest'].
    - cbn [parse_args]. destruct (is_help a); reflexivity.
    - destruct H as [H|H]; [discriminate H|].
      cbn [parse_args].
      rewrite (proj2 (String.eqb_neq a "--rate") (H FlagRate)).
      rewrite (proj2 (String.eqb_neq a "--channels") (H FlagChannels)).
      rewrite (proj2 (String.eqb_neq a "--duration") (H FlagDuration)).
      rewrite (proj2 (String.eqb_neq a "--amp") (H FlagAmp)).
      destruct (is_help a); reflexivity. }
  rewrite Hp. reflexivity.
Qed.

Lemma stray_argument_prints_usage_witness :
  noise_main libc_zero false env_ok 0 0
    ["--amp"; "--help"; "--rate"]%string
  = Some (1, [OutUsage])
  /\ noise_main libc_zero false env_ok 0 0
       ["--amp"; "--help"; "-h"; "--bogus"]%string
     = Some (0, [OutUsage]).
Proof.
  split.
  - apply (stray_argument_prints_usage libc_zero false env_ok 0 0
             [(FlagAmp, "--help"%string)] "--rate"%string []).
    left. reflexivity.
  - apply (stray_argument_prints_usage libc_zero false env_ok 0 0
             [(FlagAmp, "--help"%string)] "-h"%string ["--bogus"%string]).
    right. intros []; discriminate.
Defined.

Lemma ma_events_app (l1 l2 : list Output) :
  ma_events (l1 ++ l2) = ma_events l1 ++ ma_events l2.
Proof. apply flat_map_app. Qed.

Lemma ma_events_sleeps (l : list Output) :
  Forall is_sleep l -> ma_events l = [].
Proof.
  induction 1 as [|o l [ms ->] _ IH]; [reflexivity|].
  cbn [ma_events flat_map app]. exact IH.
Qed.

Lemma sleep_steps_sleeps (fuel : nat) :
  forall elapsed totalMS out,
    sleep_steps fuel elapsed totalMS = Some out -> Forall is_sleep out.
Proof.
  induction fuel as [|fuel IH]; intros elapsed totalMS out; cbn [sleep_steps].
  - discriminate.
  - destruct (elapsed <? totalMS).
    + destruct (sleep_steps fuel (u32 (elapsed + 50)) totalMS) as [l|] eqn:E;
        [|discriminate].
      intros [= <-]. constructor; [eexists; reflexivity | eapply IH, E].
    + intros [= <-]. constructor.
Qed.

Lemma usleep_steps_sleeps (fuel : nat) :
  forall i bound out,
    usleep_steps fuel i bound = Some out -> Forall is_sleep out.
Proof.
  induction fuel as [|fuel IH]; intros i bound out; cbn [usleep_steps].
  - discriminate.
  - destruct (i <? bound).
    + destruct (usleep_steps fuel (i + 1) bound) as [l|] eqn:E;
        [|discriminate].
      intros [= <-]. constructor; [eexists; reflexivity | eapply IH, E].
    + intros [= <-]. constructor.
Qed.

Ltac no_such :=
  repeat match goal with
    | H : _ \/ _ |- _ => destruct H
    | H : False |- _ => destruct H
    | H : _ = _ |- _ => discriminate H
    end.

(** X17. Whatever the arguments and the answers of the subsystem, when
    [main] returns it holds no device: every path that opened the device
    has released it, and never more than one handle was live.  Failure to
    open or to start the device gives status 1, and a device that started
    is always stopped, released and followed by status 0. *)
Theorem noise_main_releases_device :
  forall libc apple env time fuel args code out,
    noise_main libc apple env time fuel args = Some (code, out) ->
    live (ma_events out) = 0
    /\ within 0 (ma_events out) = true
    /\ (In OutFailedOpen out \/ In OutFailedStart out -> code = 1)
    /\ (In (Ma (EvDeviceStart true)) out ->
        code = 0
        /\ exists before,
             out = before ++ [Ma EvDeviceStop; Ma EvDeviceUninit; OutDone]).
Proof.
  intros libc apple env time fuel args code out. unfold noise_main.
  destruct (parse_args libc args default_options) as [o | c].
  2:{ intros [= <- <-]. repeat (split || intro); cbn in *;
      try reflexivity; no_such. }
  destruct (noise_main_params _ _ _ _) as [[[rate ch] amp] dur].
  destruct (device_init_ok env _); cbn [negb].
  2:{ intros [= <- <-]. repeat (split || intro); cbn in *;
      try reflexivity; no_such. }
  destruct (device_start_ok env); cbn [negb].
  2:{ intros [= <- <-]. repeat (split || intro); cbn in *;
      try reflexivity; no_such. }
  assert (Hs : forall sleeps, Forall is_sleep sleeps ->
     let out' := [Ma (EvDeviceInit (mkDeviceConfig ch rate None) true);
                  OutPlaying rate ch dur amp]
                 ++ [Ma (EvDeviceStart true)] ++ sleeps
                 ++ [Ma EvDeviceStop; Ma EvDeviceUninit; OutDone] in
     live (ma_events out') = 0 /\ within 0 (ma_events out') = true).
  { intros sleeps Hsl. cbv zeta. rewrite !ma_events_app.
    rewrite (ma_events_sleeps sleeps Hsl). split; reflexivity. }
  destruct (if apple then _ else _) as [sleeps|] eqn:E; [|discriminate].
  intros [= <- <-].
  assert (Hsl : Forall is_sleep sleeps).
  { destruct apple; [eapply usleep_steps_sleeps | eapply sleep_steps_sleeps];
      exact E. }
  destruct (Hs sleeps Hsl) as [H1 H2].
  split; [exact H1|]. split; [exact H2|]. split.
  - intros [H | H]; exfalso; cbn [app] in H;
      repeat (destruct H as [H | H]; [discriminate H|]);
      apply in_app_or in H; destruct H as [H | H];
      try (rewrite Forall_forall in Hsl; destruct (Hsl _ H); discriminate);
      cbn in H; intuition discriminate.
  - intros _. split; [reflexivity|].
    exists ([Ma (EvDeviceInit (mkDeviceConfig ch rate None) true);
             OutPlaying rate ch dur amp; Ma (EvDeviceStart true)] ++ sleeps).
    cbn [app]. reflexivity.
Qed.

Lemma noise_main_releases_device_witness :
  live (ma_events
          [Ma (EvDeviceInit (mkDeviceConfig 2 48000 None) true);
           OutPlaying 48000 2 5 c0_2; Ma (EvDeviceStart false);
           OutFailedStart; Ma EvDeviceUninit]) = 0.
Proof.
  apply (noise_main_releases_device libc_zero false
           (mkEnv true None (fun _ => true) false 0) 0 0 [] 1).
  reflexivity.
Defined.

Lemma sleep_steps_count (n : nat) :
  forall fuel elapsed totalMS,
    (n < fuel)%nat -> 0 <= elapsed ->
    elapsed + 50 * Z.of_nat n = totalMS -> totalMS < 2 ^ 32 ->
    sleep_steps fuel elapsed totalMS = Some (repeat (Sleep 50) n).
Proof.
  induction n as [|n IH]; intros fuel elapsed totalMS Hf He Ht Hmax;
    (destruct fuel as [|fuel]; [lia|]); cbn [sleep_steps repeat].
  - destruct (Z.ltb_spec elapsed totalMS); [lia | reflexivity].
  - destruct (Z.ltb_spec elapsed totalMS); [|lia].
    unfold u32. rewrite Z.mod_small by lia.
    rewrite (IH fuel (elapsed + 50) totalMS) by lia. reflexivity.
Qed.

Lemma usleep_steps_count (n : nat) :
  forall fuel i bound,
    (n < fuel)%nat -> i + Z.of_nat n = bound ->
    usleep_steps fuel i bound = Some (repeat (Sleep 100) n).
Proof.
  induction n as [|n IH]; intros fuel i bound Hf Hb;
    (destruct fuel as [|fuel]; [lia|]); cbn [usleep_steps repeat].
  - destruct (Z.ltb_spec i bound); [lia | reflexivity].
  - destruct (Z.ltb_spec i bound); [|lia].
    rewrite (IH fuel (i + 1) bound) by lia. reflexivity.
Qed.

Lemma total_sleep_app (l1 l2 : list Output) :
  total_sleep (l1 ++ l2) = total_sleep l1 + total_sleep l2.
Proof.
  induction l1 as [|o l1 IH]; cbn [app total_sleep fold_right].
  - reflexivity.
  - fold (total_sleep (l1 ++ l2)). fold (total_sleep l1).
    rewrite IH. destruct o; lia.
Qed.

Lemma total_sleep_repeat (ms : Z) (n : nat) :
  total_sleep (repeat (Sleep ms) n) = ms * Z.of_nat n.
Proof.
  induction n as [|n IH]; cbn [repeat total_sleep fold_right]; [lia|].
  fold (total_sleep (repeat (Sleep ms) n)). rewrite IH. lia.
Qed.

(** X18. The requested duration is honoured to the millisecond: the
    duration used is the one given, or 1 second when it is zero or
    negative; and when it is small enough for the millisecond count to fit
    an [int], with a device that opens and starts, [main] sleeps that many
    seconds in total (in steps of 50 ms, or of 100 ms in the Apple build),
    then stops and releases the device and returns 0. *)
Theorem noise_main_plays_for_duration :
  forall libc apple env time fuel args o,
    parse_args libc args default_options = ParsedOk o ->
    let '(rate, ch, amp, d) :=
      noise_main_params (opt_sampleRate o) (opt_channels o)
                        (opt_amplitude o) (opt_durationSec o) in
    d = Z.max (opt_durationSec o) 1
    /\ (d <= 2147483 ->
        device_init_ok env (mkDeviceConfig ch rate None) = true ->
        device_start_ok env = true ->
        20 * d < Z.of_nat fuel ->
        exists sleeps,
          noise_main libc apple env time fuel args
          = Some (0, [Ma (EvDeviceInit (mkDeviceConfig ch rate None) true);
                      OutPlaying rate ch d amp; Ma (EvDeviceStart true)]
                     ++ sleeps
                     ++ [Ma EvDeviceStop; Ma EvDeviceUninit; OutDone])
          /\ Forall is_sleep sleeps
          /\ total_sleep sleeps = 1000 * d).
Proof.
  intros libc apple env time fuel args o Hparse.
  unfold noise_main. rewrite Hparse.
  destruct (noise_main_params _ _ _ _) as [[[rate ch] amp] d] eqn:Ep.
  assert (Hd : d = Z.max (opt_durationSec o) 1).
  { unfold noise_main_params in Ep. injection Ep as _ _ _ <-.
    destruct (Z.leb_spec (opt_durationSec o) 0); lia. }
  split; [exact Hd|]. intros Hsmall Hinit Hstart Hfuel.
  rewrite Hinit, Hstart. cbn [negb].
  assert (Hd1 : 1 <= d) by lia.
  destruct apple.
  - exists (repeat (Sleep 100) (Z.to_nat (10 * d))).
    assert (Hs : s32 (d * 10) = d * 10)
      by (unfold s32; rewrite Z.mod_small by lia; lia).
    rewrite Hs.
    rewrite (usleep_steps_count (Z.to_nat (10 * d)) fuel 0 (d * 10)) by lia.
    split; [reflexivity|]. split.
    + apply Forall_forall. intros x Hx. apply repeat_spec in Hx.
      subst x. eexists; reflexivity.
    + rewrite total_sleep_repeat. lia.
  - exists (repeat (Sleep 50) (Z.to_nat (20 * d))).
    assert (Hs : u32 (s32 (d * 1000)) = d * 1000).
    { unfold s32. rewrite Z.mod_small by lia.
      unfold u32. rewrite Z.mod_small by lia. lia. }
    rewrite Hs.
    rewrite (sleep_steps_count (Z.to_nat (20 * d)) fuel 0 (d * 1000)) by lia.
    split; [reflexivity|]. split.
    + apply Forall_forall. intros x Hx. apply repeat_spec in Hx.
      subst x. eexists; reflexivity.
    + rewrite total_sleep_repeat. lia.
Qed.

Lemma noise_main_plays_for_duration_witness :
  exists sleeps,
    noise_main libc_zero false env_ok 0 21 ["--duration"; "0"]%string
    = Some (0, [Ma (EvDeviceInit (mkDeviceConfig 2 48000 None) true);
                OutPlaying 48000 2 1 c0_2; Ma (EvDeviceStart true)]
               ++ sleeps
               ++ [Ma EvDeviceStop; Ma EvDeviceUninit; OutDone])
    /\ Forall is_sleep sleeps
    /\ total_sleep sleeps = 1000 * 1.
Proof.
  pose proof (noise_main_plays_for_duration libc_zero false env_ok 0 21
                ["--duration"; "0"]%string
                (mkOptions 48000 2 0 c0_2) eq_refl) as H.
  cbn in H. destruct H as [_ H].
  apply H; try reflexivity; lia.
Defined.

(** ** The monitor thread *)

Lemma monitor_running_step (env : Env) (op : Op) (g : Globals) :
  g_monitorRunning g = true -> g_monitorRunning (step env op g) = true.
Proof.
  destruct g as [ci sel di ru st mo hd sa lg]. cbn [g_monitorRunning].
  intros ->. destruct op; cbn [step g_monitorRunning]; unfold_m;
    split_ifs; reflexivity.
Qed.

(** X19. The monitor thread is started lazily and once: the only critical
    section that starts it is a [start_noise] that succeeds with a positive
    duration (an unbounded session, a failed start, a stop or a selection
    never start it), and once started it is running after every later
    critical section. *)
Theorem monitor_started_lazily :
  (forall g env op,
      g_monitorRunning g = false ->
      g_monitorRunning (step env op g) = true ->
      exists rate ch amp dur,
        op = OpStart rate ch amp dur /\ 0 < dur
        /\ g_noiseRunning (step env op g) = true
        /\ g_hasDeadline (step env op g) = true)
  /\ (forall g script,
         g_monitorRunning g = true ->
         g_monitorRunning (run script g) = true).
Proof.
  split.
  - intros g env op. destruct g as [ci sel di ru st mo hd sa lg].
    cbn [g_monitorRunning]. intros ->.
    destruct op as [| rate ch amp dur | | idx | | fc |];
      cbn [step g_monitorRunning]; unfold_m;
      try (split_ifs; discriminate).
    destruct (Z.ltb_spec 0 dur) as [Hdur | Hdur];
      split_ifs; try discriminate; intros _;
      exists rate, ch, amp, dur; repeat split; assumption.
  - intros g script. revert g.
    induction script as [|[env op] rest IH]; intros g Hg; cbn [run].
    + exact Hg.
    + apply IH, monitor_running_step, Hg.
Qed.

Lemma monitor_started_lazily_witness :
  (exists rate ch amp dur,
      OpStart 48000 2 c0_2 3000 = OpStart rate ch amp dur /\ 0 < dur
      /\ g_noiseRunning
           (step env_ok (OpStart 48000 2 c0_2 3000)
                 (step env_ok OpEnsureContext initial)) = true
      /\ g_hasDeadline
           (step env_ok (OpStart 48000 2 c0_2 3000)
                 (step env_ok OpEnsureContext initial)) = true)
  /\ g_monitorRunning
       (run [(env_ok, OpStop); (env_ok, OpStart 8000 1 one 0)] playing)
     = true.
Proof.
  split.
  - apply (proj1 monitor_started_lazily
             (step env_ok OpEnsureContext initial) env_ok
             (OpStart 48000 2 c0_2 3000)); reflexivity.
  - apply (proj2 monitor_started_lazily playing
             [(env_ok, OpStop); (env_ok, OpStart 8000 1 one 0)]).
    reflexivity.
Defined.
